(** * maksugr.com: the syndication feeds and two page components

    A shallow embedding of

    - the feed module, with [buildFeed], [makeFeedItem] and
      [generateMainFeeds] (its text follows the post in
      [src/content/posts/plantuml-encoding-in-rust-using-tdd.mdx], from
      line 811 on; its imports place it in [src/lib]);
    - [Meta] of [src/components/meta.tsx];
    - [Alert] of [src/unnamed/part_000], with [Container] of
      [src/components/container.tsx];
    - the Rust functions the post itself gives, which write bytes as
      plantuml text and read them back (module [Plantuml]).

    The first part holds the definitions, the second the facts about them.

    JavaScript strings are lists of characters.  The patterns the code
    searches for are ASCII, so the width of a code unit plays no part. *)

From Stdlib Require Import Ascii String.
From stdpp Require Import base list gmap strings.

Set Default Proof Using "Type".
Set Warnings "-register-all".

(** * Definitions *)

(** ** Strings *)

Abbreviation str := (list ascii).

Definition lit (s : string) : str := list_ascii_of_string s.
Arguments lit s%_string.

(** The double quote, the dollar sign and the other characters the code
    tests for. *)
Definition dquote : ascii := "034"%char.
Definition dollar : ascii := "036"%char.
Definition amp : ascii := "038"%char.
Definition squote : ascii := "039"%char.
Definition backtick : ascii := "096"%char.
Definition slash : ascii := "047"%char.
Definition hash : ascii := "035"%char.
Definition lt_char : ascii := "060"%char.
Definition gt_char : ascii := "062"%char.

(** [s.startsWith(p)]. *)
Fixpoint starts_with (p s : str) : bool :=
  match p, s with
  | [], _ => true
  | _ :: _, [] => false
  | a :: p', b :: s' => Ascii.eqb a b && starts_with p' s'
  end.

(** ** [String.prototype.replace] with a global literal pattern *)

Module JS.

(** ECMAScript's GetSubstitution for a pattern without capture groups:
    in the replacement text [$$] stands for a dollar sign, [$&] for the
    matched text, [$`] for the text before the match and [$'] for the
    text after it; every other character, and a dollar sign followed by
    anything else (no group exists that [$1] could name), is copied. *)
Fixpoint getSubstitution (matched before after tmpl : str) : str :=
  match tmpl with
  | [] => []
  | c :: t =>
    if Ascii.eqb c dollar then
      match t with
      | d :: t' =>
        if Ascii.eqb d dollar then dollar :: getSubstitution matched before after t'
        else if Ascii.eqb d amp then matched ++ getSubstitution matched before after t'
        else if Ascii.eqb d backtick then before ++ getSubstitution matched before after t'
        else if Ascii.eqb d squote then after ++ getSubstitution matched before after t'
        else c :: getSubstitution matched before after t
      | [] => [c]
      end
    else c :: getSubstitution matched before after t
  end.

(** The scan of [s.replace(/p/g, ...)] for a pattern [p] that is a
    non-empty sequence of literal characters: at each position either the
    pattern matches, its substitution is emitted and the scan resumes after
    the match, or one character is copied.  [sub before after] is the text
    a match is replaced by; [before] is the part of the subject already
    scanned.  The fuel is the number of characters still to scan. *)
Fixpoint replace_scan (p : str) (sub : str -> str -> str)
    (fuel : nat) (before s : str) : str :=
  match fuel with
  | O => s
  | S n =>
    match s with
    | [] => []
    | c :: s' =>
      if starts_with p s
      then sub before (drop (length p) s)
             ++ replace_scan p sub n (before ++ p) (drop (length p) s)
      else c :: replace_scan p sub n (before ++ [c]) s'
    end
  end.

(** [s.replace(/p/g, tmpl)] with a replacement string [tmpl]. *)
Definition replace (p tmpl s : str) : str :=
  replace_scan p (fun before after => getSubstitution p before after tmpl)
    (length s) [] s.

(** Replacing every match by the fixed text [r]. *)
Definition replace_lit (p r s : str) : str :=
  replace_scan p (fun _ _ => r) (length s) [] s.

End JS.

(** [no_straddle p a b]: in [a ++ b] no match of [p] that starts in [a]
    reaches into [b]. *)
Definition no_straddle (p a b : str) : Prop :=
  forall i, i < length a ->
    starts_with p (drop i (a ++ b)) = true -> i + length p <= length a.

(** ** Exceptions and the file system *)

(** What a call completes with: a value, or a thrown error. *)
Inductive completion (E A : Type) : Type :=
  | Normal (a : A)
  | Throw (e : E).
Arguments Normal {E A} a.
Arguments Throw {E A} e.

Definition completion_bind {E A B} (f : A -> completion E B)
    (c : completion E A) : completion E B :=
  match c with
  | Normal a => f a
  | Throw e => Throw e
  end.

#[global] Instance completion_ret {E} : MRet (completion E) := fun _ a => Normal a.
#[global] Instance completion_mbind {E} : MBind (completion E) :=
  fun _ _ f c => completion_bind f c.

(** [arr.forEach(f)] for a callback that may throw: the elements are
    visited in index order and the first exception ends the loop. *)
Fixpoint forEach {E A S} (f : A -> S -> completion E S) (arr : list A) (s : S)
    : completion E S :=
  match arr with
  | [] => Normal s
  | x :: rest =>
    match f x s with
    | Normal s' => forEach f rest s'
    | Throw e => Throw e
    end
  end.

Module Fs.

(** A path is the list of its components: [public/feeds/] and
    [public/feeds] name the same directory. *)
Abbreviation path := (list str).

Fixpoint split_on (sep : ascii) (s : str) : list str :=
  match s with
  | [] => [[]]
  | c :: s' =>
    if Ascii.eqb c sep then [] :: split_on sep s'
    else match split_on sep s' with
         | [] => [[c]]
         | w :: ws => (c :: w) :: ws
         end
  end.

Definition path_of (s : str) : path :=
  filter (fun w => w <> []) (split_on slash s).

(** The directories and the regular files below the working directory. *)
Record t := mk { dirs : gset path; files : gmap path str }.

Inductive error (X : Type) : Type :=
  | Thrown (x : X)
  | EEXIST (p : path)
  | ENOTDIR (p : path)
  | ENOENT (p : path)
  | EISDIR (p : path).
Arguments Thrown {X} x.
Arguments EEXIST {X} p.
Arguments ENOTDIR {X} p.
Arguments ENOENT {X} p.
Arguments EISDIR {X} p.

(** The path with each of its ancestors, the shortest first. *)
Definition ancestors (p : path) : list path :=
  (fun n => take n p) <$> seq 1 (length p).

(** [p] ends with a slash. *)
Definition trailing_slash (p : str) : bool :=
  match last p with
  | Some c => Ascii.eqb c slash
  | None => false
  end.

(** [fs.mkdirSync(p, { recursive: true })]: the directory and the missing
    ancestors are created.  It throws when a component exists as a regular
    file: [EEXIST] when that is the last component and [p] does not end with
    a slash, [ENOTDIR] otherwise.  The error names the path that was asked
    for. *)
Definition mkdirSync_recursive {X} (p : str) (fs : t) : t * completion (error X) unit :=
  let target := path_of p in
  match List.find (fun q => bool_decide (is_Some (files fs !! q))) (ancestors target) with
  | Some q =>
    (fs, Throw (if bool_decide (q = target) && negb (trailing_slash p)
                then EEXIST target
                else ENOTDIR target))
  | None =>
    (mk (dirs fs ∪ list_to_set (ancestors target)) (files fs), Normal tt)
  end.

(** [fs.writeFileSync(p, data)]: the file is created or overwritten; it
    throws when [p] is a directory or the directory that is to hold it does
    not exist. *)
Definition writeFileSync {X} (p : str) (data : str) (fs : t) : t * completion (error X) unit :=
  let target := path_of p in
  let parent := removelast target in
  if bool_decide (target ∈ dirs fs) then (fs, Throw (EISDIR target))
  else if bool_decide (parent <> [] /\ parent ∉ dirs fs) then (fs, Throw (ENOENT target))
  else (mk (dirs fs) (<[target := data]> (files fs)), Normal tt).

End Fs.

(** A computation on the file system that may throw. *)
Definition IO (X A : Type) : Type := Fs.t -> Fs.t * completion (Fs.error X) A.

Definition io_bind {X A B} (f : A -> IO X B) (m : IO X A) : IO X B :=
  fun fs =>
    match m fs with
    | (fs', Normal a) => f a fs'
    | (fs', Throw e) => (fs', Throw e)
    end.

#[global] Instance io_ret {X} : MRet (IO X) := fun _ a fs => (fs, Normal a).
#[global] Instance io_mbind {X} : MBind (IO X) := fun _ _ f m => io_bind f m.

(** A computation that leaves the file system alone. *)
Definition io_pure {X A} (c : completion X A) : IO X A :=
  fun fs =>
    match c with
    | Normal a => (fs, Normal a)
    | Throw x => (fs, Throw (Fs.Thrown x))
    end.


(** ** The Content Sanitizer *)

(** Modelled from the spec: the Content Sanitizer.  [makeFeedItem] calls
    [stripHtml] of the package string-strip-html, which is not part of the
    repository; section 4.1 says what the call is to do, and the options of
    the call name the tags. *)
Module Sanitizer.

(** The options [makeFeedItem] passes to [stripHtml]. *)
Record Opts := mkOpts {
  onlyStripTags : list str;
  stripTogetherWithTheirContents : list str
}.

(** A markup string is read as characters and tags.  A tag keeps the text
    it was read from. *)
Inductive token : Type :=
  | TChar (c : ascii)
  | TTag (closing : bool) (name : str) (raw : str).

Definition raw_of (t : token) : str :=
  match t with
  | TChar c => [c]
  | TTag _ _ raw => raw
  end.

Definition is_letter (c : ascii) : bool :=
  let n := nat_of_ascii c in
  (65 <=? n) && (n <=? 90) || (97 <=? n) && (n <=? 122).

Definition lower (c : ascii) : ascii :=
  let n := nat_of_ascii c in
  if (65 <=? n) && (n <=? 90) then ascii_of_nat (n + 32) else c.

(** A tag's name ends at white space or a slash. *)
Definition ends_name (c : ascii) : bool :=
  let n := nat_of_ascii c in
  (n <=? 32) || Ascii.eqb c slash.

Fixpoint name_of (body : str) : str :=
  match body with
  | [] => []
  | c :: rest => if ends_name c then [] else lower c :: name_of rest
  end.

(** What stands between the angle brackets: [name ...] opens an element
    and [/name ...] closes one; the name starts with a letter. *)
Definition classify (body : str) : option (bool * str) :=
  match body with
  | [] => None
  | c :: rest =>
    if Ascii.eqb c slash then
      match rest with
      | d :: _ => if is_letter d then Some (true, name_of rest) else None
      | [] => None
      end
    else if is_letter c then Some (false, name_of body)
    else None
  end.

(** [body_then_gt s] is [body] when [s] is [body] followed by the closing
    bracket and [body] holds no bracket. *)
Fixpoint body_then_gt (s : str) : option str :=
  match s with
  | [] => None
  | c :: rest =>
    if Ascii.eqb c gt_char then
      match rest with [] => Some [] | _ :: _ => None end
    else if Ascii.eqb c lt_char then None
    else cons c <$> body_then_gt rest
  end.

(** The kind and name of a complete tag. *)
Definition tag_of (raw : str) : option (bool * str) :=
  match raw with
  | [] => None
  | c :: rest =>
    if Ascii.eqb c lt_char then body_then_gt rest ≫= classify else None
  end.

Definition read_tag (raw : str) : list token :=
  match tag_of raw with
  | Some (closing, name) => [TTag closing name raw]
  | None => TChar <$> raw
  end.

(** The tokens of [s].  [pending] holds the text read since an opening
    bracket that no closing bracket has followed yet; another opening
    bracket, or the end of the text, turns it into plain characters. *)
Fixpoint tokenize_from (pending : option str) (s : str) : list token :=
  match s with
  | [] =>
    match pending with
    | Some a => TChar <$> a
    | None => []
    end
  | c :: rest =>
    match pending with
    | None =>
      if Ascii.eqb c lt_char then tokenize_from (Some [c]) rest
      else TChar c :: tokenize_from None rest
    | Some a =>
      if Ascii.eqb c gt_char then read_tag (a ++ [c]) ++ tokenize_from None rest
      else if Ascii.eqb c lt_char then (TChar <$> a) ++ tokenize_from (Some [c]) rest
      else tokenize_from (Some (a ++ [c])) rest
    end
  end.

Definition tokenize (s : str) : list token := tokenize_from None s.

(** Removing the tags named in [onlyStripTags]; an opening tag that is
    also named in [stripTogetherWithTheirContents] takes everything up to
    the closing tag of its name with it (up to the end, when none
    follows).  [inside] names the element being removed. *)
Fixpoint strip (o : Opts) (inside : option str) (ts : list token) : list token :=
  match ts with
  | [] => []
  | t :: rest =>
    match inside with
    | Some n =>
      match t with
      | TTag true m _ =>
        if bool_decide (m = n) then strip o None rest else strip o (Some n) rest
      | _ => strip o (Some n) rest
      end
    | None =>
      match t with
      | TTag closing m _ =>
        if bool_decide (m ∈ onlyStripTags o) then
          if negb closing && bool_decide (m ∈ stripTogetherWithTheirContents o)
          then strip o (Some m) rest
          else strip o None rest
        else t :: strip o None rest
      | TChar _ => t :: strip o None rest
      end
    end
  end.

(** Modelled from the spec: [stripHtml(html, opts).result] of the package
    string-strip-html, which is not part of the repository.  Section 4.1:
    remove script and style elements, including their full text content,
    not just the tags; sanitization must not alter other markup. *)
Definition stripHtml (html : str) (o : Opts) : str :=
  concat (raw_of <$> strip o None (tokenize html)).

(** *** Vocabulary for its properties *)

(** The element that is being removed after the tokens [ts]. *)
Fixpoint strip_state (o : Opts) (inside : option str) (ts : list token) : option str :=
  match ts with
  | [] => inside
  | t :: rest =>
    match inside with
    | Some n =>
      match t with
      | TTag true m _ =>
        if bool_decide (m = n) then strip_state o None rest
        else strip_state o (Some n) rest
      | _ => strip_state o (Some n) rest
      end
    | None =>
      match t with
      | TTag closing m _ =>
        if bool_decide (m ∈ onlyStripTags o)
           && negb closing && bool_decide (m ∈ stripTogetherWithTheirContents o)
        then strip_state o (Some m) rest
        else strip_state o None rest
      | TChar _ => strip_state o None rest
      end
    end
  end.

(** [t] is a tag with one of the names [names]. *)
Definition tag_named (names : list str) (t : token) : bool :=
  match t with
  | TTag _ m _ => bool_decide (m ∈ names)
  | TChar _ => false
  end.


(** No tag of the markup [s] has one of the names [names]. *)
Definition free_of (names : list str) (s : str) : bool :=
  forallb (fun t => negb (tag_named names t)) (tokenize s).

(** An opening bracket that starts no tag. *)
Definition stray_bracket (t : token) : bool :=
  match t with
  | TChar c => Ascii.eqb c lt_char
  | TTag _ _ _ => false
  end.

(** Every opening bracket of [s] starts a tag, as in the output of a
    renderer, which writes a bracket of the text as a character
    reference. *)
Definition brackets_open_tags (s : str) : bool :=
  forallb (fun t => negb (stray_bracket t)) (tokenize s).

(** The markup does not end inside an element that is being removed. *)
Definition closed (o : Opts) (s : str) : bool :=
  bool_decide (strip_state o None (tokenize s) = None).


End Sanitizer.

(** ** The site's constants *)

(** [src/lib/constants] is not among the sources: its constants are
    parameters of the model. *)
Record Constants := mkConstants {
  AUTHOR_EMAIL : str;
  AUTHOR_NAME : str;
  BASE_URL : str;
  COPYRIGHT : str;
  DEFAULT_DESCRIPTION : str;
  DEFAULT_TITLE : str;
  EXAMPLE_PATH : str
}.

(** ** Posts ([src/interfaces/post], as far as the feed reads them) *)

Module IPost.

Record Metadata := mkMetadata {
  slug : str;
  title : str;
  summary : str;
  publishedAt : str
}.

Record t (MdxSource : Type) := mk {
  metadata : Metadata;
  mdxSource : MdxSource
}.
Arguments mk {MdxSource}.
Arguments metadata {MdxSource}.
Arguments mdxSource {MdxSource}.

End IPost.

(** ** The feed package's objects *)

Module FeedLinks.
Record t := mk { json : str; atom : str; rss2 : str }.
End FeedLinks.

Module Author.
Record t := mk { name : str; email : str; link : str }.
End Author.

Module FeedOptions.
Record t := mk {
  title : str;
  description : str;
  id : str;
  link : str;
  language : str;
  image : str;
  favicon : str;
  copyright : str;
  generator : str;
  feedLinks : FeedLinks.t;
  author : Author.t
}.
End FeedOptions.

Module Item.
Record t (Date : Type) := mk {
  title : str;
  id : str;
  link : str;
  description : str;
  date : Date;
  content : str
}.
Arguments mk {Date}.
Arguments title {Date}.
Arguments id {Date}.
Arguments link {Date}.
Arguments description {Date}.
Arguments date {Date}.
Arguments content {Date}.
End Item.

Module Feed.

Record t (Date : Type) := mk {
  options : FeedOptions.t;
  items : list (Item.t Date)
}.
Arguments mk {Date}.
Arguments options {Date}.
Arguments items {Date}.

(** Modelled from the spec: [new Feed(options)] of the package feed, which
    is not part of the repository.  Section 4.2: [create(channelMetadata)]
    gives a channel; it holds no item yet. *)
Definition new {Date} (o : FeedOptions.t) : t Date :=
  mk o [].

(** Modelled from the spec: [feed.addItem(item)] of the package feed.
    Section 4.2: [addItem] mutates the channel's item collection,
    order-preserving and append-only. *)
Definition addItem {Date} (feed : t Date) (item : Item.t Date) : t Date :=
  mk (options feed) (items feed ++ [item]).

End Feed.

(** ** The feed module *)

(** The patterns of the three [replace] calls. *)
Definition href_anchor_pattern : str := lit "href=" ++ [dquote; slash; hash].
Definition href_root_pattern : str := lit "href=" ++ [dquote; slash].
Definition src_root_pattern : str := lit "src=" ++ [dquote; slash].

(** The three output files. *)
Definition feeds_dir : str := lit "public/feeds/".
Definition rss2_file : str := lit "public/feeds/feed.xml".
Definition json1_file : str := lit "public/feeds/feed.json".
Definition atom1_file : str := lit "public/feeds/atom.xml".

Section FeedModule.

(** The site's constants. *)
Variable C : Constants.

(** [post.mdxSource], the [Date] objects, and what the collaborators
    throw. *)
Variables MdxSource Date X : Type.

(** [ReactDOMServer.renderToStaticMarkup(<MDXRemote {...post.mdxSource}
    components={MDXComponents} />)]: the Content Renderer, an external
    collaborator; it gives a markup string or throws. *)
Variable renderToStaticMarkup : MdxSource -> completion X str.

(** [parseISO] of date-fns. *)
Variable parseISO : str -> Date.

(** [getPosts] of [src/lib/posts], the Post Loader: it reads the content
    directory and gives the posts in its order of enumeration, or throws. *)
Variable getPosts : str -> Fs.t -> completion X (list (IPost.t MdxSource)).

(** Modelled from the spec: [feed.rss2()], [feed.json1()] and
    [feed.atom1()] of the package feed.  Section 4.3: each document is
    reproducible byte-for-byte from the channel and its items.  What else a
    call can depend on, the time it is made at, is a parameter of
    [generateMainFeeds_at] below. *)
Variables rss2 json1 atom1 : Feed.t Date -> str.

Definition buildFeed : Feed.t Date :=
  Feed.new
    (FeedOptions.mk
       (DEFAULT_TITLE C)
       (DEFAULT_DESCRIPTION C)
       (BASE_URL C)
       (BASE_URL C)
       (lit "en")
       (BASE_URL C ++ lit "/og/image.png")
       (BASE_URL C ++ lit "/favicons/favicon.ico")
       (COPYRIGHT C)
       (lit "NextJS + feed package")
       (FeedLinks.mk
          (BASE_URL C ++ lit "/feeds/feed.json")
          (BASE_URL C ++ lit "/feeds/atom.xml")
          (BASE_URL C ++ lit "/feeds/feed.xml"))
       (Author.mk (AUTHOR_NAME C) (AUTHOR_EMAIL C) (BASE_URL C))).

(** [const url] of [makeFeedItem]. *)
Definition url (slug : str) : str :=
  BASE_URL C ++ lit "/notes/" ++ slug.

(** [const htmlContent] of [makeFeedItem], from the rendered markup: the
    chain of the three [replace] calls. *)
Definition htmlContent (slug : str) (rendered : str) : str :=
  JS.replace src_root_pattern (lit "src=" ++ [dquote] ++ BASE_URL C ++ [slash])
    (JS.replace href_root_pattern (lit "href=" ++ [dquote] ++ BASE_URL C ++ [slash])
       (JS.replace href_anchor_pattern (lit "href=" ++ [dquote] ++ url slug ++ [hash])
          rendered)).

(** The options of the [stripHtml] call. *)
Definition stripOpts : Sanitizer.Opts :=
  Sanitizer.mkOpts [lit "script"; lit "style"] [lit "script"; lit "style"].

(** [const cleanHtmlContent] of [makeFeedItem]. *)
Definition cleanHtmlContent (slug : str) (rendered : str) : str :=
  Sanitizer.stripHtml (htmlContent slug rendered) stripOpts.

Definition makeFeedItem (post : IPost.t MdxSource) : completion X (Item.t Date) :=
  let m := IPost.metadata post in
  rendered ← renderToStaticMarkup (IPost.mdxSource post);
  mret (Item.mk
          (IPost.title m)
          (url (IPost.slug m))
          (url (IPost.slug m))
          (IPost.summary m)
          (parseISO (IPost.publishedAt m))
          (cleanHtmlContent (IPost.slug m) rendered)).

(** [posts.forEach((post) => feed.addItem(makeFeedItem(post)))]. *)
Definition addItems (posts : list (IPost.t MdxSource)) (feed : Feed.t Date)
    : completion X (Feed.t Date) :=
  forEach (fun post feed => item ← makeFeedItem post; mret (Feed.addItem feed item))
    posts feed.

Definition generateMainFeeds : IO X unit :=
  let feed := buildFeed in
  posts ← (fun fs => io_pure (getPosts (lit "notes") fs) fs);
  feed ← io_pure (addItems posts feed);
  _ ← Fs.mkdirSync_recursive feeds_dir;
  _ ← Fs.writeFileSync rss2_file (rss2 feed);
  _ ← Fs.writeFileSync json1_file (json1 feed);
  Fs.writeFileSync atom1_file (atom1 feed).

End FeedModule.

Arguments buildFeed C {Date}.
Arguments makeFeedItem C {MdxSource Date X}.
Arguments addItems C {MdxSource Date X}.
Arguments generateMainFeeds C {MdxSource Date X}.

(** *** Vocabulary for its properties *)

(** The paths of the feeds directory and of the three files. *)
Definition feeds_path : Fs.path := [lit "public"; lit "feeds"].
Definition rss2_path : Fs.path := [lit "public"; lit "feeds"; lit "feed.xml"].
Definition json1_path : Fs.path := [lit "public"; lit "feeds"; lit "feed.json"].
Definition atom1_path : Fs.path := [lit "public"; lit "feeds"; lit "atom.xml"].

(** The file system lets the feeds be written: neither [public] nor
    [public/feeds] is a regular file, and none of the three files is a
    directory. *)
Definition feeds_writable (fs : Fs.t) : Prop :=
  Fs.files fs !! [lit "public"] = None
  /\ Fs.files fs !! feeds_path = None
  /\ (rss2_path ∉ Fs.dirs fs)
  /\ (json1_path ∉ Fs.dirs fs)
  /\ (atom1_path ∉ Fs.dirs fs).

(** The file system after a run that wrote the documents of [feed]. *)
Definition with_feeds (rss json atom : str) (fs : Fs.t) : Fs.t :=
  Fs.mk (Fs.dirs fs ∪ {[ [lit "public"]; feeds_path ]})
    (<[atom1_path := atom]> (<[json1_path := json]> (<[rss2_path := rss]> (Fs.files fs)))).

(** A text that holds neither a double quote nor a dollar sign. *)
Definition plain (s : str) : bool :=
  forallb (fun c => negb (Ascii.eqb c dquote) && negb (Ascii.eqb c dollar)) s.

(** A base URL that is absolute: it is not empty, does not start with a
    slash, and is plain. *)
Definition absolute (base : str) : bool :=
  match base with
  | [] => false
  | c :: _ => negb (Ascii.eqb c slash)
  end && plain base.

(** ** React elements *)

Module React.

(** What a component returns: text, an element with its props in the
    order they are written and its children, or a fragment. *)
Inductive node : Type :=
  | Text (s : str)
  | Element (type : str) (props : list (str * str)) (children : list node)
  | Fragment (children : list node).

Definition props_of (n : node) : list (str * str) :=
  match n with
  | Element _ props _ => props
  | _ => []
  end.

Definition type_of (n : node) : option str :=
  match n with
  | Element type _ _ => Some type
  | _ => None
  end.

(** The value of the prop [name]. *)
Definition prop (name : str) (n : node) : option str :=
  snd <$> List.find (fun kv => bool_decide (kv.1 = name)) (props_of n).

Definition children_of (n : node) : list node :=
  match n with
  | Text _ => []
  | Element _ _ children => children
  | Fragment children => children
  end.

(** The elements of a tree in document order, the root first. *)
Fixpoint elements (n : node) : list node :=
  match n with
  | Text _ => []
  | Element _ _ children => n :: List.flat_map elements children
  | Fragment children => List.flat_map elements children
  end.

(** The texts of a tree in document order. *)
Fixpoint texts (n : node) : list str :=
  match n with
  | Text s => [s]
  | Element _ _ children => List.flat_map texts children
  | Fragment children => List.flat_map texts children
  end.

(** The elements of type [type]. *)
Definition elements_of (type : str) (n : node) : list node :=
  filter (fun e => type_of e = Some type) (elements n).

(** A truthy optional boolean prop. *)
Definition truthy (b : option bool) : bool :=
  match b with
  | Some true => true
  | _ => false
  end.

End React.

Import React.

(** ** [src/components/container.tsx] *)

Definition Container (children : list node) : node :=
  Element (lit "div")
    [(lit "className",
      lit "container text-black font-source-sans-pro max-w-4xl mx-auto px-5")]
    children.

(** ** [src/components/meta.tsx] *)

Definition Meta (C : Constants) : node :=
  Element (lit "Head") []
    [ Element (lit "link")
        [(lit "rel", lit "apple-touch-icon");
         (lit "sizes", lit "180x180");
         (lit "href", lit "/favicon/apple-touch-icon.png")] [];
      Element (lit "link")
        [(lit "rel", lit "icon");
         (lit "type", lit "image/png");
         (lit "sizes", lit "32x32");
         (lit "href", lit "/favicon/favicon-32x32.png")] [];
      Element (lit "link")
        [(lit "rel", lit "icon");
         (lit "type", lit "image/png");
         (lit "sizes", lit "16x16");
         (lit "href", lit "/favicon/favicon-16x16.png")] [];
      Element (lit "link")
        [(lit "rel", lit "manifest");
         (lit "href", lit "/favicon/site.webmanifest")] [];
      Element (lit "link")
        [(lit "rel", lit "mask-icon");
         (lit "href", lit "/favicon/safari-pinned-tab.svg");
         (lit "color", lit "#000000")] [];
      Element (lit "link")
        [(lit "rel", lit "shortcut icon");
         (lit "href", lit "/favicon/favicon.ico")] [];
      Element (lit "meta")
        [(lit "name", lit "msapplication-TileColor");
         (lit "content", lit "#000000")] [];
      Element (lit "meta")
        [(lit "name", lit "msapplication-config");
         (lit "content", lit "/favicon/browserconfig.xml")] [];
      Element (lit "meta")
        [(lit "name", lit "theme-color");
         (lit "content", lit "#000")] [];
      Element (lit "meta")
        [(lit "name", lit "description");
         (lit "content", DEFAULT_TITLE C)] [];
      Element (lit "meta")
        [(lit "property", lit "og:image");
         (lit "content", lit "/og/image.png")] [];
      Element (lit "link")
        [(lit "rel", lit "alternate");
         (lit "type", lit "application/rss+xml");
         (lit "title", lit "Roman Ponomarev RSS feed");
         (lit "href", lit "/feeds/feed.xml")] [];
      Element (lit "link")
        [(lit "rel", lit "alternate");
         (lit "type", lit "application/atom+xml");
         (lit "title", lit "Roman Ponomarev Atom feed");
         (lit "href", lit "/feeds/atom.xml")] [];
      Element (lit "link")
        [(lit "rel", lit "alternate");
         (lit "type", lit "application/feed+json");
         (lit "title", lit "Roman Ponomarev JSON feed");
         (lit "href", lit "/feeds/feed.json")] [] ].

(** The discovery links of a page head: the [link] elements whose [rel] is
    [alternate], each with its [type] and [href]. *)
Definition alternate_links (head : node) : list (option str * option str) :=
  (fun e => (prop (lit "type") e, prop (lit "href") e))
    <$> filter (fun e => prop (lit "rel") e = Some (lit "alternate"))
          (elements_of (lit "link") head).

(** The file the site serves at the URL path [href]: the framework serves
    the directory [public] at the root. *)
Definition served_from (href : str) : str := lit "public" ++ href.

(** ** [src/components/alert.tsx] *)

Section AlertComponent.

Variable C : Constants.

(** [cn] of the package classnames, applied to a class and an object from
    classes to conditions. *)
Variable cn : str -> list (str * bool) -> str.

Definition source_code_href : str :=
  lit "https://github.com/vercel/next.js/tree/canary/examples/" ++ EXAMPLE_PATH C.

Definition exit_preview_href : str := lit "/api/exit-preview".

Definition Alert (preview : option bool) : node :=
  Element (lit "div")
    [(lit "className",
      cn (lit "border-b")
        [(lit "bg-neutral-800 border-neutral-800 text-white", truthy preview);
         (lit "bg-neutral-50 border-neutral-200", negb (truthy preview))])]
    [ Container
        [ Element (lit "div")
            [(lit "className", lit "py-2 text-center text-sm")]
            [ if truthy preview then
                Fragment
                  [ Text (lit "This page is a preview.");
                    Text (lit " ");
                    Element (lit "a")
                      [(lit "href", exit_preview_href);
                       (lit "className",
                        lit "underline hover:text-teal-300 duration-200 transition-colors")]
                      [Text (lit "Click here")];
                    Text (lit " ");
                    Text (lit "to exit preview mode.") ]
              else
                Fragment
                  [ Text (lit "The source code for this blog is");
                    Text (lit " ");
                    Element (lit "a")
                      [(lit "href", source_code_href);
                       (lit "className",
                        lit "underline hover:text-blue-600 duration-200 transition-colors")]
                      [Text (lit "available on GitHub")];
                    Text (lit ".") ] ] ] ].

(** The [href] of each anchor of a tree, in document order. *)
Definition anchor_hrefs (n : node) : list (option str) :=
  prop (lit "href") <$> elements_of (lit "a") n.

End AlertComponent.

(** ** A small site to evaluate the model on *)

Module Demo.

(** The sources of a post are its rendered markup, or nothing when the
    compiled body is malformed; the renderer throws on the latter. *)
Definition constants : Constants :=
  mkConstants (lit "author@example.org") (lit "Author") (lit "https://BASEURL")
    (lit "All rights reserved") (lit "Notes") (lit "A blog") (lit "blog-starter").

Definition render (source : option str) : completion str str :=
  match source with
  | Some markup => Normal markup
  | None => Throw (lit "malformed compiledBody")
  end.

(** Dates are kept as they are written. *)
Definition parse (iso : str) : str := iso.

Definition hello_markup : str :=
  lit "<p>See <a href=" ++ [dquote] ++ lit "/#about" ++ [dquote] ++ lit ">about</a></p>".

Definition hello : IPost.t (option str) :=
  IPost.mk
    (IPost.mkMetadata (lit "hello-world") (lit "Hello") (lit "Hi") (lit "2022-01-01"))
    (Some hello_markup).

Definition hello_item : Item.t str :=
  Item.mk (lit "Hello")
    (lit "https://BASEURL/notes/hello-world")
    (lit "https://BASEURL/notes/hello-world")
    (lit "Hi")
    (lit "2022-01-01")
    (lit "<p>See <a href=" ++ [dquote] ++ lit "https://BASEURL/notes/hello-world#about"
       ++ [dquote] ++ lit ">about</a></p>").

Definition broken : IPost.t (option str) :=
  IPost.mk
    (IPost.mkMetadata (lit "broken") (lit "Broken") (lit "No body") (lit "2022-02-02"))
    None.

(** A document lists the links of the items. *)
Definition document (format : str) (feed : Feed.t str) : str :=
  format ++ concat ((fun item => lit " " ++ Item.link item) <$> Feed.items feed).

Definition loader (posts : list (IPost.t (option str))) (dir : str) (fs : Fs.t)
    : completion str (list (IPost.t (option str))) :=
  Normal posts.

Definition empty_fs : Fs.t := Fs.mk ∅ ∅.

(** A file system that holds older feeds. *)
Definition stale_fs : Fs.t :=
  Fs.mk {[ [lit "public"]; feeds_path ]}
    {[ rss2_path := lit "old rss"; atom1_path := lit "old atom" ]}.

Definition run (posts : list (IPost.t (option str))) : IO str unit :=
  generateMainFeeds constants render parse (loader posts)
    (document (lit "rss")) (document (lit "json")) (document (lit "atom")).

(** An embedded page that is addressed by an anchor of the site's root. *)
Definition iframe_markup : str :=
  lit "<iframe src=" ++ [dquote] ++ lit "/#about" ++ [dquote] ++ lit "></iframe>".

End Demo.

(** ** Vocabulary for what the Link Rewriter leaves behind *)

(** The text [p] occurs in [s]. *)
Fixpoint occurs_in (p s : str) : bool :=
  starts_with p s
  || match s with
     | [] => false
     | _ :: s' => occurs_in p s'
     end.

(** ** Vocabulary for the runs of [generateMainFeeds] *)

(** [fs'] differs from [fs] at most in the feeds directory, its ancestor and
    the three files. *)
Definition only_feeds_differ (fs fs' : Fs.t) : Prop :=
  (forall q, q ∉ [rss2_path; json1_path; atom1_path] ->
     Fs.files fs' !! q = Fs.files fs !! q)
  /\ Fs.dirs fs ⊆ Fs.dirs fs'
  /\ Fs.dirs fs' ⊆ Fs.dirs fs ∪ {[ [lit "public"]; feeds_path ]}.


(** The [content] of the [meta] elements of a page head whose [property]
    is [name]. *)
Definition meta_content (name : str) (head : node) : list (option str) :=
  prop (lit "content")
    <$> filter (fun e => prop (lit "property") e = Some name)
          (elements_of (lit "meta") head).

(** The URL of a path of the site. *)
Definition site_url (C : Constants) (path : str) : str := BASE_URL C ++ path.

(** File systems to evaluate runs on. *)
Module DemoFs.

(** [public/feeds/feed.json] is a directory. *)
Definition json_is_dir : Fs.t := Fs.mk {[ json1_path ]} ∅.

(** [public] is a regular file. *)
Definition public_is_file : Fs.t := Fs.mk ∅ {[ [lit "public"] := lit "x" ]}.

(** [public/feeds] is a regular file. *)
Definition feeds_is_file : Fs.t := Fs.mk {[ [lit "public"] ]} {[ feeds_path := lit "x" ]}.

(** Some other files and directories. *)
Definition other_files : Fs.t :=
  Fs.mk {[ [lit "src"] ]}
    {[ [lit "public"; lit "robots.txt"] := lit "User-agent: *";
       rss2_path := lit "old rss" ]}.

End DemoFs.

(** ** The plantuml text encoding *)

(** The post [src/content/posts/plantuml-encoding-in-rust-using-tdd.mdx]
    gives the file [utils.rs] of the crate plantuml_encoding in full (lines
    479 to 545 and 640 to 687) and the functions [encode_plantuml_deflate]
    and [decode_plantuml_deflate] of its [lib.rs] (lines 443 to 454 and 691
    to 713).

    A [u8] is an integer from 0 to 255 and a [char] its code point; a
    [String], a [&str] and a slice are lists.  The additions and
    subtractions of the code stay within a byte, as the comparisons before
    them see to, so they are the ones of the integers; a shift to the left
    loses the bits that leave the byte. *)
Module Plantuml.

Local Open Scope Z_scope.

(** [c as u8]. *)
Definition as_u8 (c : Z) : Z := c mod 256.

(** [x << n] on [u8]. *)
Definition shl (x n : Z) : Z := Z.land (Z.shiftl x n) 255.

(** The characters of a string literal. *)
Definition chars (s : string) : list Z :=
  (fun c => Z.of_nat (nat_of_ascii c)) <$> list_ascii_of_string s.
Arguments chars s%_string.

Definition encode_6_bit (b : Z) : list Z :=
  if b <? 10 then [48 + b]
  else
    let b := b - 10 in
    if b <? 26 then [65 + b]
    else
      let b := b - 26 in
      if b <? 26 then [97 + b]
      else
        let b := b - 26 in
        if b =? 0 then chars "-"
        else if b =? 1 then chars "_"
        else chars "?".

Definition append_3_bytes (b1 b2 b3 : Z) : list Z :=
  let c1 := Z.shiftr b1 2 in
  let c2 := Z.lor (shl (Z.land b1 3) 4) (Z.shiftr b2 4) in
  let c3 := Z.lor (shl (Z.land b2 15) 2) (Z.shiftr b3 6) in
  let c4 := Z.land b3 63 in
  encode_6_bit (Z.land c1 63)
    ++ encode_6_bit (Z.land c2 63)
    ++ encode_6_bit (Z.land c3 63)
    ++ encode_6_bit (Z.land c4 63).

(** [encoded_bytes.iter().enumerate()], from the index [i] on. *)
Fixpoint enumerate_from (i : nat) (l : list Z) : list (nat * Z) :=
  match l with
  | [] => []
  | x :: l' => (i, x) :: enumerate_from (S i) l'
  end.

(** [.step_by(3)] on an enumeration from 0: the items whose index is a
    multiple of three. *)
Definition step_by_3 (l : list (nat * Z)) : list (nat * Z) :=
  filter (fun p => (p.1 mod 3 = 0)%nat) l.

(** One round of the loop of [encode_plantuml_for_deflate].  Indexing a
    slice out of its bounds panics: [None]. *)
Definition encode_round (encoded_bytes : list Z) (result : option (list Z))
    (item : nat * Z) : option (list Z) :=
  let '(index, byte) := item in
  result ← result;
  if bool_decide (index + 2 = length encoded_bytes)%nat then
    b2 ← encoded_bytes !! (index + 1)%nat;
    Some (result ++ append_3_bytes byte b2 0)
  else if bool_decide (index + 1 = length encoded_bytes)%nat then
    Some (result ++ append_3_bytes byte 0 0)
  else
    b2 ← encoded_bytes !! (index + 1)%nat;
    b3 ← encoded_bytes !! (index + 2)%nat;
    Some (result ++ append_3_bytes byte b2 b3).

Definition encode_plantuml_for_deflate (encoded_bytes : list Z) : option (list Z) :=
  foldl (encode_round encoded_bytes) (Some [])
    (step_by_3 (enumerate_from 0 encoded_bytes)).

(** [s] is the string of one character, or empty. *)
Definition decode_6_bit (s : list Z) : option Z :=
  c ← as_u8 <$> head s;
  if bool_decide (s = chars "_") then Some 63
  else if bool_decide (s = chars "-") then Some 62
  else if 97 <=? c then Some (c - 61)
  else if 65 <=? c then Some (c - 55)
  else if 48 <=? c then Some (c - 48)
  else Some 0.

(** The iterator of [extract_3_bytes] is asked four times; what the chunk
    holds beyond that is not looked at. *)
Definition extract_3_bytes (chars : list Z) : option (list Z) :=
  match chars with
  | [] => None
  | x1 :: chars =>
    c1 ← decode_6_bit [x1];
    match chars with
    | [] => None
    | x2 :: chars =>
      c2 ← decode_6_bit [x2];
      match chars with
      | [] => None
      | x3 :: chars =>
        c3 ← decode_6_bit [x3];
        match chars with
        | [] => None
        | x4 :: _ =>
          c4 ← decode_6_bit [x4];
          let b1 := Z.lor (shl c1 2) (Z.land (Z.shiftr c2 4) 63) in
          let b2 := Z.lor (Z.land (shl c2 4) 240) (Z.land (Z.shiftr c3 2) 15) in
          let b3 := Z.lor (Z.land (shl c3 6) 192) (Z.land c4 63) in
          Some [b1; b2; b3]
        end
      end
    end
  end.

(** [l.chunks(n)]: pieces of [n] items, the last one possibly shorter. *)
Fixpoint chunks_fuel (fuel n : nat) (l : list Z) : list (list Z) :=
  match fuel with
  | O => []
  | S fuel' =>
    match l with
    | [] => []
    | _ :: _ => take n l :: chunks_fuel fuel' n (drop n l)
    end
  end.

Definition chunks (n : nat) (l : list Z) : list (list Z) :=
  chunks_fuel (length l) n l.

(** The loop of [decode_plantuml_for_deflate]: the first chunk that cannot
    be decoded ends it. *)
Fixpoint decode_rounds (cs : list (list Z)) (result : list Z) : option (list Z) :=
  match cs with
  | [] => Some result
  | chunk :: cs' =>
    bytes ← extract_3_bytes chunk;
    decode_rounds cs' (result ++ bytes)
  end.

Definition decode_plantuml_for_deflate (decoded_string : list Z) : option (list Z) :=
  decode_rounds (chunks 4 decoded_string) [].

(** [FromPlantumlError] holds a message. *)
Definition from_io_error (err : list Z) : list Z :=
  chars "there is a problem during deflate decoding: `" ++ err ++ chars "`".

Definition from_utf8_error (err : list Z) : list Z :=
  chars "there is a problem during decoding: `" ++ err ++ chars "`".

Section Deflate.

(** [str::as_bytes]: the bytes of a string in UTF-8. *)
Variable as_bytes : list Z -> list Z.

(** The [DeflateEncoder] of the crate flate2, written to and finished: the
    bytes it gives, or the text of its [io::Error]. *)
Variable deflate : list Z -> completion (list Z) (list Z).

(** The [DeflateDecoder] of the crate flate2, written to byte by byte and
    finished: the bytes it gives, or the text of its [io::Error]. *)
Variable inflate : list Z -> completion (list Z) (list Z).

(** [String::from_utf8]: the string, or the text of its error. *)
Variable from_utf8 : list Z -> completion (list Z) (list Z).

(** A panic of [encode_plantuml_for_deflate] is one of the function:
    [None]. *)
Definition encode_plantuml_deflate (plantuml : list Z)
    : option (completion (list Z) (list Z)) :=
  match deflate (as_bytes plantuml) with
  | Throw err => Some (Throw (from_io_error err))
  | Normal encoded_bytes => Normal <$> encode_plantuml_for_deflate encoded_bytes
  end.

Definition decode_plantuml_deflate (plantuml_deflated : list Z)
    : completion (list Z) (list Z) :=
  match decode_plantuml_for_deflate plantuml_deflated with
  | None => Throw (chars "internal decoding error (out of bounds or similar)")
  | Some result =>
    match inflate result with
    | Throw err => Throw (from_io_error err)
    | Normal decoded_bytes =>
      match from_utf8 decoded_bytes with
      | Throw err => Throw (from_utf8_error err)
      | Normal s => Normal s
      end
    end
  end.

End Deflate.

(** *** Vocabulary for its properties *)

Definition is_u8 (b : Z) : Prop := 0 <= b < 256.

(** The sixty-four characters of the encoding: digits, capital letters,
    small letters, the hyphen and the underscore. *)
Definition in_alphabet (c : Z) : bool :=
  (48 <=? c) && (c <=? 57) || (65 <=? c) && (c <=? 90)
  || (97 <=? c) && (c <=? 122) || (c =? 45) || (c =? 95).

(** The encoding, three bytes at a time. *)
Fixpoint encode_groups (bytes : list Z) : list Z :=
  match bytes with
  | [] => []
  | [b1] => append_3_bytes b1 0 0
  | [b1; b2] => append_3_bytes b1 b2 0
  | b1 :: b2 :: b3 :: rest => append_3_bytes b1 b2 b3 ++ encode_groups rest
  end.

(** [P] holds of every integer from 0 up to [n], [n] left out. *)
Definition all_below (n : nat) (P : Z -> bool) : bool :=
  forallb P (Z.of_nat <$> seq 0 n).

(** The four sextets that [append_3_bytes] cuts three bytes into. *)
Definition sextets (b1 b2 b3 : Z) : list Z :=
  [ Z.land (Z.shiftr b1 2) 63;
    Z.land (Z.lor (shl (Z.land b1 3) 4) (Z.shiftr b2 4)) 63;
    Z.land (Z.lor (shl (Z.land b2 15) 2) (Z.shiftr b3 6)) 63;
    Z.land (Z.land b3 63) 63 ].

(** The three bytes that [extract_3_bytes] joins four sextets into. *)
Definition joined (c1 c2 c3 c4 : Z) : list Z :=
  [ Z.lor (shl c1 2) (Z.land (Z.shiftr c2 4) 63);
    Z.lor (Z.land (shl c2 4) 240) (Z.land (Z.shiftr c3 2) 15);
    Z.lor (Z.land (shl c3 6) 192) (Z.land c4 63) ].

(** The zero bytes that fill the last group of [n] bytes. *)
Definition padding (n : nat) : list Z :=
  replicate ((3 - n mod 3) mod 3) 0.

End Plantuml.

(** ** The time of a run *)

(** [buildFeed] gives the channel no [updated] date, and each of
    [feed.rss2()], [feed.json1()] and [feed.atom1()] is a call into the
    package feed: what it returns can depend on the moment of the call as
    well as on the feed.  A run at the time [now] is [generateMainFeeds]
    with the serializers as they answer at that time. *)
Section Clock.

Variable C : Constants.
Variables MdxSource Date X Time : Type.
Variable renderToStaticMarkup : MdxSource -> completion X str.
Variable parseISO : str -> Date.
Variable getPosts : str -> Fs.t -> completion X (list (IPost.t MdxSource)).
Variables rss2 json1 atom1 : Time -> Feed.t Date -> str.

Definition generateMainFeeds_at (now : Time) : IO X unit :=
  generateMainFeeds C renderToStaticMarkup parseISO getPosts
    (rss2 now) (json1 now) (atom1 now).

End Clock.

Arguments generateMainFeeds_at C {MdxSource Date X Time}.

Module DemoClock.

(** A document that carries the time it was made at, before the links of
    the items. *)
Definition stamped (format : str) (now : str) (feed : Feed.t str) : str :=
  format ++ lit " " ++ now
    ++ concat ((fun item => lit " " ++ Item.link item) <$> Feed.items feed).

(** The RSS and the Atom document carry the time, the JSON document does
    not. *)
Definition run (posts : list (IPost.t (option str))) (now : str) : IO str unit :=
  generateMainFeeds_at Demo.constants Demo.render Demo.parse (Demo.loader posts)
    (stamped (lit "rss")) (fun _ => Demo.document (lit "json")) (stamped (lit "atom"))
    now.

Definition new_year : str := lit "2022-01-01T00:00:00.000Z".
Definition next_day : str := lit "2022-01-02T00:00:00.000Z".

End DemoClock.

(** ** The documents and their readers *)

(** Modelled from the spec: what a document of the package feed is to the
    one who reads it.  Sections 1 and 4.3: the serializers turn a channel
    into valid RSS, Atom and JSON feed documents, each self-contained, with
    the items of the channel.  A format says which texts are valid
    documents and how many entries a document lists. *)
Module Format.
Record t := mk { valid : str -> Prop; entries : str -> nat }.
End Format.


Module DemoFormat.

(** A document that marks each item with a star after the name of its
    format, and a format that asks for the name and counts the stars. *)
Definition starred (name : str) (feed : Feed.t str) : str :=
  name ++ replicate (length (Feed.items feed)) "*"%char.


Definition run (posts : list (IPost.t (option str))) : IO str unit :=
  generateMainFeeds Demo.constants Demo.render Demo.parse (Demo.loader posts)
    (starred (lit "rss")) (starred (lit "json")) (starred (lit "atom")).

End DemoFormat.
(** * Facts and theorems *)

(** Membership in a list that is written out is settled by evaluation. *)
Ltac solve_elem :=
  lazymatch goal with
  | |- _ ∈ _ => apply (bool_decide_unpack _); vm_compute; exact I
  | |- _ ∉ _ => apply (bool_decide_unpack _); vm_compute; exact I
  end.

(** ** Facts about the scan *)

Section Replace.

Implicit Types p r s a b tmpl : str.

Lemma starts_with_prefix p s :
  starts_with p s = true <-> exists k, s = p ++ k.
Proof.
  revert s; induction p as [|x p IH]; intros s; simpl.
  - split; [intros _; by exists s | done].
  - destruct s as [|y s].
    + split; [done | intros [k Hk]; discriminate].
    + rewrite andb_true_iff, IH. split.
      * intros [Hxy [k ->]]. apply Ascii.eqb_eq in Hxy as ->. by exists k.
      * intros [k [= -> ->]]. split; [apply Ascii.eqb_refl | by exists k].
Qed.

Lemma starts_with_app p s : starts_with p (p ++ s) = true.
Proof. apply starts_with_prefix. by exists s. Qed.

Lemma starts_with_skip x p s : starts_with (x ++ p) (x ++ s) = starts_with p s.
Proof.
  induction x as [|c x IH]; simpl; [done|].
  by rewrite Ascii.eqb_refl.
Qed.

Lemma starts_with_head p c d s :
  c <> d -> starts_with (c :: p) (d :: s) = false.
Proof.
  intros Hcd. simpl. destruct (Ascii.eqb_spec c d); [done | done].
Qed.

Lemma starts_with_elem p s q : starts_with p s = true -> q ∈ p -> q ∈ s.
Proof.
  intros [k ->]%starts_with_prefix Hq. apply elem_of_app. by left.
Qed.

(** A replacement text without a dollar sign is inserted as it is. *)
Lemma getSubstitution_plain m before after tmpl :
  dollar ∉ tmpl -> JS.getSubstitution m before after tmpl = tmpl.
Proof.
  induction tmpl as [|c t IH]; simpl; [done|].
  intros [Hc Ht]%not_elem_of_cons.
  destruct (Ascii.eqb_spec c dollar) as [->|_]; [done|].
  by rewrite IH.
Qed.

(** With such a replacement text the scan no longer depends on what was
    scanned before. *)
Lemma replace_scan_plain p tmpl n before before' s :
  dollar ∉ tmpl ->
  JS.replace_scan p (fun b a => JS.getSubstitution p b a tmpl) n before s
  = JS.replace_scan p (fun _ _ => tmpl) n before' s.
Proof.
  intros Ht. revert before before' s.
  induction n as [|n IH]; intros before before' s; simpl; [done|].
  destruct s as [|c s]; [done|].
  destruct (starts_with p (c :: s)).
  - rewrite getSubstitution_plain by done. f_equal. apply IH.
  - f_equal. apply IH.
Qed.

Lemma replace_plain p tmpl s :
  dollar ∉ tmpl -> JS.replace p tmpl s = JS.replace_lit p tmpl s.
Proof. intros Ht. by apply replace_scan_plain. Qed.

Lemma replace_scan_before p r n before before' s :
  JS.replace_scan p (fun _ _ => r) n before s
  = JS.replace_scan p (fun _ _ => r) n before' s.
Proof.
  revert before before' s.
  induction n as [|n IH]; intros before before' s; simpl; [done|].
  destruct s as [|c s]; [done|].
  destruct (starts_with p (c :: s)); f_equal; apply IH.
Qed.

(** Any fuel that covers the subject gives the same result: a match of a
    non-empty pattern consumes at least one character. *)
Lemma replace_scan_fuel p r n m before s :
  p <> [] -> length s <= n -> length s <= m ->
  JS.replace_scan p (fun _ _ => r) n before s
  = JS.replace_scan p (fun _ _ => r) m before s.
Proof.
  intros Hp. revert m before s.
  induction n as [|n IH]; intros m before s Hn Hm.
  - destruct s; [|simpl in Hn; lia]. by destruct m.
  - destruct s as [|c s]; [by destruct m|].
    destruct m as [|m]; [simpl in Hm; lia|].
    simpl in Hn, Hm. cbn [JS.replace_scan].
    destruct (starts_with p (c :: s)).
    + f_equal. apply IH.
      all: destruct p as [|x p]; [done|]; simpl; rewrite length_drop; lia.
    + f_equal. apply IH; lia.
Qed.

(** The three equations of the literal replacement. *)
Lemma replace_lit_nil p r : JS.replace_lit p r [] = [].
Proof. done. Qed.

Lemma replace_scan_match p sub n before s :
  p <> [] ->
  JS.replace_scan p sub (S n) before (p ++ s)
  = sub before s ++ JS.replace_scan p sub n (before ++ p) s.
Proof.
  intros Hp.
  assert (exists c s', p ++ s = c :: s') as (c & s' & E).
  { destruct p as [|c p]; [done|]. by exists c, (p ++ s). }
  pose proof (starts_with_app p s) as Hsw.
  pose proof (drop_app_length p s) as Hdrop.
  rewrite E in *. cbn [JS.replace_scan]. by rewrite Hsw, Hdrop.
Qed.

Lemma replace_lit_match p r s :
  p <> [] -> JS.replace_lit p r (p ++ s) = r ++ JS.replace_lit p r s.
Proof.
  intros Hp. unfold JS.replace_lit.
  rewrite (replace_scan_fuel p r _ (S (length s + length p))); [|done|lia|].
  2: { rewrite length_app. lia. }
  rewrite replace_scan_match by done. f_equal.
  rewrite (replace_scan_before _ _ _ _ []).
  apply replace_scan_fuel; [done|lia|done].
Qed.

Lemma replace_lit_step p r c s :
  starts_with p (c :: s) = false ->
  JS.replace_lit p r (c :: s) = c :: JS.replace_lit p r s.
Proof.
  intros Hc. unfold JS.replace_lit. cbn [length JS.replace_scan].
  rewrite Hc. f_equal. apply replace_scan_before.
Qed.

(** A pattern that holds a character the subject lacks matches nowhere. *)
Lemma replace_lit_id p r s q :
  q ∈ p -> q ∉ s -> JS.replace_lit p r s = s.
Proof.
  intros Hq. induction s as [|c s IH]; intros Hs; [done|].
  rewrite replace_lit_step.
  - f_equal. apply IH. by apply not_elem_of_cons in Hs as [_ ?].
  - destruct (starts_with p (c :: s)) eqn:E; [|done].
    destruct Hs. by eapply starts_with_elem.
Qed.

(** Every match starts with the pattern's first character, so a stretch
    without that character is copied. *)
Lemma replace_lit_skip h p r x s :
  h ∉ x -> JS.replace_lit (h :: p) r (x ++ s) = x ++ JS.replace_lit (h :: p) r s.
Proof.
  induction x as [|c x IH]; intros Hx; [done|].
  apply not_elem_of_cons in Hx as [Hc Hx].
  cbn [app]. rewrite replace_lit_step; [by rewrite IH|].
  apply starts_with_head. congruence.
Qed.

(** Where no match straddles the boundary, the scan of the whole is the
    scan of the parts. *)
Lemma replace_lit_app p r a b :
  p <> [] -> no_straddle p a b ->
  JS.replace_lit p r (a ++ b) = JS.replace_lit p r a ++ JS.replace_lit p r b.
Proof.
  intros Hp. remember (length a) as n eqn:Hn.
  revert a Hn. induction n as [n IH] using lt_wf_ind. intros a -> Hab.
  destruct a as [|c a]; [done|].
  destruct (starts_with p ((c :: a) ++ b)) eqn:E.
  - pose proof (Hab 0 ltac:(simpl; lia) E) as Hlen. simpl in Hlen.
    apply starts_with_prefix in E as [k Hk].
    assert (c :: a = p ++ drop (length p) (c :: a)) as Ha.
    { rewrite <- (take_drop (length p) (c :: a)) at 1. f_equal.
      rewrite <- (take_app_le _ b) by (simpl; lia).
      by rewrite Hk, take_app_length. }
    set (a' := drop (length p) (c :: a)) in *.
    assert (length (c :: a) = length p + length a') as Hla.
    { rewrite Ha at 1. by rewrite length_app. }
    rewrite Ha, <- app_assoc, !replace_lit_match, <- app_assoc by done.
    f_equal. apply (IH (length a')); [|done|].
    + destruct p; [done|]. simpl in *. lia.
    + intros i Hi Hsw.
      specialize (Hab (length p + i)). rewrite Ha, <- app_assoc in Hab.
      rewrite <- drop_drop, drop_app_length, length_app in Hab.
      specialize (Hab ltac:(lia) Hsw). lia.
  - cbn [app] in *. rewrite replace_lit_step by done.
    rewrite replace_lit_step.
    + cbn [app]. f_equal. apply (IH (length a)); [simpl; lia|done|].
      intros i Hi Hsw. specialize (Hab (S i) ltac:(simpl; lia) Hsw).
      simpl in Hab. lia.
    + destruct (starts_with p (c :: a)) eqn:E'; [|done].
      apply starts_with_prefix in E' as [k Hk].
      rewrite <- E. symmetry. apply starts_with_prefix. exists (k ++ b).
      change (c :: a ++ b) with ((c :: a) ++ b).
      by rewrite Hk, <- app_assoc.
Qed.

(** Two ways to see that a boundary is not straddled: the character after
    it occurs in the pattern at its first place only, or the character
    before it occurs in the pattern at its last place only. *)
Lemma no_straddle_after p a c b :
  c ∉ tail p -> no_straddle p a (c :: b).
Proof.
  intros Hc i Hi [k Hk]%starts_with_prefix.
  rewrite drop_app_le in Hk by lia.
  pose proof (length_drop a i) as Hd.
  destruct (decide (length p <= length (drop i a))) as [|Hlt]; [lia|].
  exfalso. apply Hc.
  apply app_eq_app in Hk as [l [[H1 H2]|[H1 H2]]].
  - apply (f_equal length) in H1. rewrite length_app in H1. lia.
  - destruct l as [|d l].
    + rewrite app_nil_r in H1. rewrite H1 in Hlt. lia.
    + injection H2 as -> _. rewrite H1.
      destruct (drop i a) as [|e a']; [simpl in Hd; lia|].
      simpl. apply elem_of_app. right. left.
Qed.

Lemma no_straddle_before p a c b :
  c ∉ removelast p -> no_straddle p (a ++ [c]) b.
Proof.
  intros Hc i Hi [k Hk]%starts_with_prefix.
  rewrite length_app in Hi. simpl in Hi.
  rewrite drop_app_le in Hk by (rewrite length_app; simpl; lia).
  rewrite drop_app_le in Hk by lia.
  rewrite length_app. simpl.
  pose proof (length_drop a i) as Hd.
  destruct (decide (length p <= length (drop i a) + 1)) as [|Hlt]; [lia|].
  exfalso. apply Hc.
  apply app_eq_app in Hk as [l [[H1 H2]|[H1 H2]]].
  - apply (f_equal length) in H1. rewrite !length_app in H1. simpl in H1. lia.
  - destruct l as [|d l].
    + rewrite app_nil_r in H1. rewrite H1, length_app in Hlt. simpl in Hlt. lia.
    + rewrite H1, <- app_assoc. rewrite removelast_app by done.
      apply elem_of_app. right. simpl. left.
Qed.

(** A stretch [m] that no match can touch is kept, and the scan of what
    surrounds it goes on as if it stood alone. *)
Lemma replace_lit_frame p r a m b c m' d m'' :
  p <> [] ->
  m = c :: m' -> c ∉ tail p ->
  m = m'' ++ [d] -> d ∉ removelast p ->
  JS.replace_lit p r m = m ->
  JS.replace_lit p r (a ++ m ++ b)
  = JS.replace_lit p r a ++ m ++ JS.replace_lit p r b.
Proof.
  intros Hp Hc Hcp Hd Hdp Hm.
  rewrite replace_lit_app; [|done|rewrite Hc; by apply no_straddle_after].
  f_equal. rewrite <- Hm at 2.
  apply replace_lit_app; [done|]. rewrite Hd. by apply no_straddle_before.
Qed.

(** A match of a pattern whose first character occurs in it only once:
    what stands before the match and what stands after it are scanned on
    their own. *)
Lemma replace_lit_at p r a b c p' :
  p = c :: p' -> c ∉ p' ->
  JS.replace_lit p r (a ++ p ++ b)
  = JS.replace_lit p r a ++ r ++ JS.replace_lit p r b.
Proof.
  intros Hp Hc.
  rewrite replace_lit_app.
  - by rewrite replace_lit_match by (by rewrite Hp).
  - by rewrite Hp.
  - rewrite Hp at 2. cbn [app]. apply no_straddle_after. by rewrite Hp.
Qed.

End Replace.


(** ** The Link Rewriter *)

Lemma plain_spec (s : str) : plain s = true -> (dquote ∉ s) /\ (dollar ∉ s).
Proof.
  unfold plain. rewrite forallb_forall.
  intros H. split; intros Hin%list_elem_of_In%H; by vm_compute in Hin.
Qed.

Lemma absolute_spec (base : str) :
  absolute base = true ->
  (exists c rest, base = c :: rest /\ c <> slash) /\ (dquote ∉ base) /\ (dollar ∉ base).
Proof.
  unfold absolute. intros [Hhd Hplain]%andb_true_iff.
  split; [|by apply plain_spec].
  destruct base as [|c rest]; [done|]. exists c, rest. split; [done|].
  intros ->. by vm_compute in Hhd.
Qed.

Section Links.

Variable C : Constants.
Variable slug : str.
Hypothesis Hbase : absolute (BASE_URL C) = true.
Hypothesis Hslug : plain slug = true.

Local Abbreviation base := (BASE_URL C).
Local Abbreviation R1 :=
  (JS.replace_lit href_anchor_pattern (lit "href=" ++ [dquote] ++ url C slug ++ [hash])).
Local Abbreviation R2 :=
  (JS.replace_lit href_root_pattern (lit "href=" ++ [dquote] ++ base ++ [slash])).
Local Abbreviation R3 :=
  (JS.replace_lit src_root_pattern (lit "src=" ++ [dquote] ++ base ++ [slash])).

Lemma base_quote : dquote ∉ base.
Proof using Hbase. by destruct (absolute_spec _ Hbase) as (_ & ? & _). Qed.

Lemma base_dollar : dollar ∉ base.
Proof using Hbase. by destruct (absolute_spec _ Hbase) as (_ & _ & ?). Qed.

Lemma url_quote : dquote ∉ url C slug.
Proof using Hbase Hslug.
  unfold url. rewrite !not_elem_of_app. split; [apply base_quote|].
  split; [solve_elem|]. by apply plain_spec.
Qed.

Lemma url_dollar : dollar ∉ url C slug.
Proof using Hbase Hslug.
  unfold url. rewrite !not_elem_of_app. split; [apply base_dollar|].
  split; [solve_elem|]. by apply plain_spec.
Qed.

Lemma url_not_root rest : starts_with [slash] (url C slug ++ rest) = false.
Proof using Hbase.
  destruct (absolute_spec _ Hbase) as ((c & b & Hb & Hc) & _).
  unfold url. rewrite Hb. cbn [app]. apply starts_with_head. congruence.
Qed.

Lemma base_not_root rest : starts_with [slash] (base ++ rest) = false.
Proof using Hbase.
  destruct (absolute_spec _ Hbase) as ((c & b & Hb & Hc) & _).
  rewrite Hb. cbn [app]. apply starts_with_head. congruence.
Qed.

(** The three calls insert their replacement texts as they are. *)
Lemma htmlContent_lit (s : str) : htmlContent C slug s = R3 (R2 (R1 s)).
Proof using Hbase Hslug.
  unfold htmlContent.
  pose proof base_dollar. pose proof url_dollar.
  rewrite !replace_plain; [done|..].
  all: rewrite !not_elem_of_app; repeat split; try done; solve_elem.
Qed.

(** The text the first call inserts is left alone by the other two. *)
Lemma R2_anchor_text :
  R2 (lit "href=" ++ [dquote] ++ url C slug ++ [hash])
  = lit "href=" ++ [dquote] ++ url C slug ++ [hash].
Proof using Hbase Hslug.
  change (lit "href=" ++ [dquote] ++ url C slug ++ [hash])
    with ("h"%char :: (lit "ref=" ++ [dquote]) ++ (url C slug ++ [hash])).
  rewrite replace_lit_step.
  - f_equal. change href_root_pattern with ("h"%char :: lit "ref=" ++ [dquote; slash]).
    rewrite replace_lit_skip by solve_elem. f_equal.
    apply (replace_lit_id _ _ _ dquote); [solve_elem|].
    rewrite not_elem_of_app. split; [apply url_quote|solve_elem].
  - change href_root_pattern with ((lit "href=" ++ [dquote]) ++ [slash]).
    change ("h"%char :: (lit "ref=" ++ [dquote]) ++ (url C slug ++ [hash]))
      with ((lit "href=" ++ [dquote]) ++ (url C slug ++ [hash])).
    rewrite starts_with_skip. apply url_not_root.
Qed.

Lemma R3_href_text (v : str) :
  dquote ∉ v ->
  R3 (lit "href=" ++ [dquote] ++ v) = lit "href=" ++ [dquote] ++ v.
Proof.
  intros Hv.
  change (lit "href=" ++ [dquote] ++ v) with ((lit "href=" ++ [dquote]) ++ v).
  change src_root_pattern with ("s"%char :: lit "rc=" ++ [dquote; slash]).
  rewrite replace_lit_skip by solve_elem. f_equal.
  apply (replace_lit_id _ _ _ dquote); [solve_elem|done].
Qed.

(** An anchor reference in a [href]. *)
Lemma htmlContent_href_anchor (pre post : str) :
  htmlContent C slug (pre ++ href_anchor_pattern ++ post)
  = htmlContent C slug pre
    ++ (lit "href=" ++ [dquote] ++ url C slug ++ [hash])
    ++ htmlContent C slug post.
Proof using Hbase Hslug.
  rewrite !htmlContent_lit.
  rewrite (replace_lit_at href_anchor_pattern _ _ _ "h"%char
             (lit "ref=" ++ [dquote; slash; hash])); [|done|solve_elem].
  rewrite (replace_lit_frame href_root_pattern _ _ _ _ "h"%char
             (lit "ref=" ++ [dquote] ++ url C slug ++ [hash])
             hash (lit "href=" ++ [dquote] ++ url C slug));
    [|done|done|solve_elem|by rewrite <- !app_assoc|solve_elem|apply R2_anchor_text].
  rewrite (replace_lit_frame src_root_pattern _ _ _ _ "h"%char
             (lit "ref=" ++ [dquote] ++ url C slug ++ [hash])
             hash (lit "href=" ++ [dquote] ++ url C slug));
    [done|done|done|solve_elem|by rewrite <- !app_assoc|solve_elem|].
  apply R3_href_text. rewrite not_elem_of_app. split; [apply url_quote|solve_elem].
Qed.

(** A stretch without the letter [h] that follows any text is copied by
    the two [href] calls. *)
Lemma href_call_copies (p' r a x b : str) (c : ascii) (x' : str) :
  x = c :: x' -> c ∉ p' -> "h"%char ∉ x ->
  JS.replace_lit ("h"%char :: p') r (a ++ x ++ b)
  = JS.replace_lit ("h"%char :: p') r a ++ x ++ JS.replace_lit ("h"%char :: p') r b.
Proof.
  intros Hx Hc Hh.
  rewrite replace_lit_app; [|done|].
  - by rewrite replace_lit_skip.
  - rewrite Hx. cbn [app]. by apply no_straddle_after.
Qed.

(** A root-relative reference in a [href]. *)
Lemma htmlContent_href_root (pre post : str) :
  starts_with [hash] post = false ->
  htmlContent C slug (pre ++ href_root_pattern ++ post)
  = htmlContent C slug pre
    ++ (lit "href=" ++ [dquote] ++ base ++ [slash])
    ++ htmlContent C slug post.
Proof using Hbase Hslug.
  intros Hpost. rewrite !htmlContent_lit.
  assert (R1 (pre ++ href_root_pattern ++ post)
          = R1 pre ++ href_root_pattern ++ R1 post) as ->.
  { rewrite replace_lit_app; [|done|].
    2: { change (href_root_pattern ++ post)
           with ("h"%char :: (lit "ref=" ++ [dquote; slash]) ++ post).
         apply no_straddle_after. solve_elem. }
    f_equal.
    change (href_root_pattern ++ post)
      with ("h"%char :: (lit "ref=" ++ [dquote; slash]) ++ post).
    rewrite replace_lit_step.
    - change href_anchor_pattern
        with ("h"%char :: lit "ref=" ++ [dquote; slash; hash]).
      by rewrite replace_lit_skip by solve_elem.
    - change href_anchor_pattern with (href_root_pattern ++ [hash]).
      change ("h"%char :: (lit "ref=" ++ [dquote; slash]) ++ post)
        with (href_root_pattern ++ post).
      by rewrite starts_with_skip. }
  rewrite (replace_lit_at href_root_pattern _ _ _ "h"%char
             (lit "ref=" ++ [dquote; slash])); [|done|solve_elem].
  rewrite (replace_lit_frame src_root_pattern _ _ _ _ "h"%char
             (lit "ref=" ++ [dquote] ++ base ++ [slash])
             slash (lit "href=" ++ [dquote] ++ base));
    [done|done|done|solve_elem|by rewrite <- !app_assoc|solve_elem|].
  apply R3_href_text. rewrite not_elem_of_app. split; [apply base_quote|solve_elem].
Qed.

(** A root-relative reference in a [src]. *)
Lemma htmlContent_src_root (pre post : str) :
  htmlContent C slug (pre ++ src_root_pattern ++ post)
  = htmlContent C slug pre
    ++ (lit "src=" ++ [dquote] ++ base ++ [slash])
    ++ htmlContent C slug post.
Proof using Hbase Hslug.
  rewrite !htmlContent_lit.
  change href_anchor_pattern with ("h"%char :: lit "ref=" ++ [dquote; slash; hash]).
  rewrite (href_call_copies _ _ _ src_root_pattern _ "s"%char
             (lit "rc=" ++ [dquote; slash])); [|done|solve_elem|solve_elem].
  change href_root_pattern with ("h"%char :: lit "ref=" ++ [dquote; slash]).
  rewrite (href_call_copies _ _ _ src_root_pattern _ "s"%char
             (lit "rc=" ++ [dquote; slash])); [|done|solve_elem|solve_elem].
  by rewrite (replace_lit_at src_root_pattern _ _ _ "s"%char
                (lit "rc=" ++ [dquote; slash])); [|done|solve_elem].
Qed.

(** A stretch without a double quote holds no reference and is left as it
    is. *)
Lemma htmlContent_other (s : str) :
  dquote ∉ s -> htmlContent C slug s = s.
Proof using Hbase Hslug.
  intros Hs. rewrite htmlContent_lit.
  rewrite (replace_lit_id href_anchor_pattern _ s dquote); [|solve_elem|done].
  rewrite (replace_lit_id href_root_pattern _ s dquote); [|solve_elem|done].
  by rewrite (replace_lit_id src_root_pattern _ s dquote); [|solve_elem|done].
Qed.

End Links.

(** C3.  For a base URL that is absolute and, like the slug, holds neither a
    double quote nor a dollar sign, the three [replace] calls rewrite every
    reference of the rendered markup, wherever it stands: a [href] that
    starts with [/#] gets the canonical URL of the post in place of the
    slash; any other [href] that starts with a slash, and every [src] that
    starts with a slash, gets the base URL in front.  What stands before and
    after the reference is rewritten by the same rules. *)
Theorem links_are_rewritten (C : Constants) (slug pre post : str) :
  absolute (BASE_URL C) = true ->
  plain slug = true ->
  htmlContent C slug (pre ++ (lit "href=" ++ [dquote] ++ lit "/#") ++ post)
  = htmlContent C slug pre
    ++ (lit "href=" ++ [dquote] ++ url C slug ++ lit "#")
    ++ htmlContent C slug post
  /\ (starts_with (lit "#") post = false ->
      htmlContent C slug (pre ++ (lit "href=" ++ [dquote] ++ lit "/") ++ post)
      = htmlContent C slug pre
        ++ (lit "href=" ++ [dquote] ++ BASE_URL C ++ lit "/")
        ++ htmlContent C slug post)
  /\ htmlContent C slug (pre ++ (lit "src=" ++ [dquote] ++ lit "/") ++ post)
     = htmlContent C slug pre
       ++ (lit "src=" ++ [dquote] ++ BASE_URL C ++ lit "/")
       ++ htmlContent C slug post.
Proof.
  intros Hbase Hslug. split; [|split].
  - by apply htmlContent_href_anchor.
  - by apply htmlContent_href_root.
  - by apply htmlContent_src_root.
Qed.

(** ** The Content Sanitizer *)

Module SanitizerFacts.

Import Sanitizer.

Implicit Types (s raw body : str) (t : token) (ts : list token).
Implicit Types (o : Opts) (n : str).

(** *** Reading tags *)



Lemma concat_raw_chars s : concat (raw_of <$> (TChar <$> s)) = s.
Proof. induction s as [|c s IH]; simpl; by f_equal. Qed.

Lemma concat_raw_read_tag raw : concat (raw_of <$> read_tag raw) = raw.
Proof.
  unfold read_tag. destruct (tag_of raw) as [[closing n]|].
  - simpl. apply app_nil_r.
  - apply concat_raw_chars.
Qed.

(** *** The tokenizer *)

(** The tokens spell the text. *)
Lemma concat_raw_tokenize_from pending s :
  concat (raw_of <$> tokenize_from pending s) = default [] pending ++ s.
Proof.
  revert pending. induction s as [|c s IH]; intros pending.
  - destruct pending as [a|]; simpl; [|done].
    by rewrite concat_raw_chars, app_nil_r.
  - destruct pending as [a|]; simpl.
    + destruct (Ascii.eqb c gt_char).
      { rewrite fmap_app, concat_app, concat_raw_read_tag, IH. simpl.
        by rewrite <- app_assoc. }
      destruct (Ascii.eqb c lt_char).
      { by rewrite fmap_app, concat_app, concat_raw_chars, IH. }
      rewrite IH. simpl. by rewrite <- app_assoc.
    + destruct (Ascii.eqb c lt_char); [by rewrite IH|].
      simpl. by rewrite IH.
Qed.

Lemma concat_raw_tokenize s : concat (raw_of <$> tokenize s) = s.
Proof. apply concat_raw_tokenize_from. Qed.









(** *** Removing elements *)

Lemma strip_app o inside ts1 ts2 :
  strip o inside (ts1 ++ ts2)
  = strip o inside ts1 ++ strip o (strip_state o inside ts1) ts2.
Proof.
  revert inside. induction ts1 as [|t ts1 IH]; intros inside; [done|].
  destruct inside as [n|]; cbn [app strip strip_state].
  - destruct t as [c|[] m raw]; [apply IH| |apply IH].
    destruct (bool_decide (m = n)); apply IH.
  - destruct t as [c|closing m raw]; [by rewrite IH|].
    destruct (bool_decide (m ∈ onlyStripTags o)); cbn [andb].
    + destruct (negb closing && bool_decide (m ∈ stripTogetherWithTheirContents o));
        apply IH.
    + by rewrite IH.
Qed.

Lemma strip_state_app o inside ts1 ts2 :
  strip_state o inside (ts1 ++ ts2)
  = strip_state o (strip_state o inside ts1) ts2.
Proof.
  revert inside. induction ts1 as [|t ts1 IH]; intros inside; [done|].
  destruct inside as [n|]; cbn [app strip_state].
  - destruct t as [c|[] m raw]; [apply IH| |apply IH].
    destruct (bool_decide (m = n)); apply IH.
  - destruct t as [c|closing m raw]; [apply IH|].
    destruct (_ && _); apply IH.
Qed.


(** Tokens without a tag to remove are kept as they are. *)
Lemma strip_free o ts :
  Forall (fun t => tag_named (onlyStripTags o) t = false) ts ->
  strip o None ts = ts /\ strip_state o None ts = None.
Proof.
  induction 1 as [|t ts Ht _ [IH1 IH2]]; [done|].
  destruct t as [c|closing m raw]; cbn [strip strip_state].
  - by rewrite IH1.
  - simpl in Ht. rewrite Ht. cbn [andb]. by rewrite IH1.
Qed.





(** *** On markup strings *)

Lemma stripHtml_app_tokens s1 s2 o :
  tokenize (s1 ++ s2) = tokenize s1 ++ tokenize s2 ->
  strip_state o None (tokenize s1) = None ->
  stripHtml (s1 ++ s2) o = stripHtml s1 o ++ stripHtml s2 o.
Proof.
  intros Htok Hst. unfold stripHtml.
  by rewrite Htok, strip_app, Hst, fmap_app, concat_app.
Qed.



Lemma free_of_spec names s :
  free_of names s = true ->
  Forall (fun t => tag_named names t = false) (tokenize s).
Proof.
  unfold free_of. rewrite forallb_forall. intros H.
  apply Forall_forall. intros t Ht%list_elem_of_In%H. by destruct (tag_named names t).
Qed.

(** Markup without a tag to remove is left as it is. *)
Lemma stripHtml_free o s :
  free_of (onlyStripTags o) s = true -> stripHtml s o = s /\ closed o s = true.
Proof.
  intros [H1 H2]%free_of_spec%strip_free. unfold stripHtml, closed.
  rewrite H1, H2. split; [apply concat_raw_tokenize|by apply bool_decide_eq_true_2].
Qed.


End SanitizerFacts.

(** ** The page components *)

Section Components.

Variable C : Constants.
Variable cn : str -> list (str * bool) -> str.

Lemma source_code_href_not_exit : source_code_href C <> exit_preview_href.
Proof. discriminate. Qed.

Lemma anchor_hrefs_Alert preview :
  anchor_hrefs (Alert C cn preview)
  = [Some (if truthy preview then exit_preview_href else source_code_href C)].
Proof. by destruct preview as [[]|]. Qed.

Lemma texts_Alert preview :
  texts (Alert C cn preview)
  = if truthy preview
    then [lit "This page is a preview."; lit " "; lit "Click here"; lit " ";
          lit "to exit preview mode."]
    else [lit "The source code for this blog is"; lit " ";
          lit "available on GitHub"; lit "."].
Proof. by destruct preview as [[]|]. Qed.

Lemma truthy_true preview : truthy preview = true <-> preview = Some true.
Proof. destruct preview as [[]|]; simpl; split; congruence. Qed.

End Components.

(** C9.  Whatever the site's constants are, the page head [Meta] holds
    exactly three links whose [rel] is [alternate]: of the types
    [application/rss+xml], [application/atom+xml] and
    [application/feed+json], pointing to [/feeds/feed.xml],
    [/feeds/atom.xml] and [/feeds/feed.json] in this order; these are, below
    [public], the three files [generateMainFeeds] writes the RSS, the Atom
    and the JSON document to. *)
Theorem Meta_advertises_feeds (C : Constants) :
  alternate_links (Meta C)
  = [ (Some (lit "application/rss+xml"), Some (lit "/feeds/feed.xml"));
      (Some (lit "application/atom+xml"), Some (lit "/feeds/atom.xml"));
      (Some (lit "application/feed+json"), Some (lit "/feeds/feed.json")) ]
  /\ length (alternate_links (Meta C)) = 3
  /\ List.map (fun l => option_map served_from (snd l)) (alternate_links (Meta C))
     = [Some rss2_file; Some atom1_file; Some json1_file].
Proof. by vm_compute. Qed.

(** C10.  For every value of the optional prop [preview], [Alert] renders
    exactly one anchor.  It is the exit-preview anchor, with href
    [/api/exit-preview], if and only if [preview] is true; otherwise ([false]
    or left out) it is the anchor to the source code on GitHub.  Of the two
    messages exactly the one that goes with the anchor is rendered. *)
Theorem Alert_preview_branch (C : Constants) (cn : str -> list (str * bool) -> str)
    (preview : option bool) :
  let out := Alert C cn preview in
  length (anchor_hrefs out) = 1
  /\ (Some exit_preview_href ∈ anchor_hrefs out <-> preview = Some true)
  /\ (Some (source_code_href C) ∈ anchor_hrefs out <-> preview <> Some true)
  /\ (lit "This page is a preview." ∈ texts out <-> preview = Some true)
  /\ (lit "The source code for this blog is" ∈ texts out <-> preview <> Some true).
Proof.
  intros out. subst out. rewrite anchor_hrefs_Alert, texts_Alert.
  pose proof (source_code_href_not_exit C) as Hne.
  assert (forall a b : str, Some a ∈ [Some b] <-> a = b) as Hin.
  { intros a b. rewrite list_elem_of_singleton. split; congruence. }
  rewrite !Hin.
  destruct preview as [[]|]; cbn [truthy length].
  all: repeat split; try done; try congruence.
  all: try (intros _; solve_elem).
  all: intros Hin'; apply (bool_decide_pack _) in Hin'; vm_compute in Hin'; done.
Qed.

(** ** The feed module *)

Example path_of_ex :
  Fs.path_of (lit "public/feeds/") = [lit "public"; lit "feeds"]
  /\ Fs.ancestors (Fs.path_of (lit "public/feeds/feed.xml"))
     = [[lit "public"]; [lit "public"; lit "feeds"];
        [lit "public"; lit "feeds"; lit "feed.xml"]].
Proof. split; reflexivity. Qed.

Lemma feeds_paths :
  Fs.path_of feeds_dir = feeds_path
  /\ Fs.path_of rss2_file = rss2_path
  /\ Fs.path_of json1_file = json1_path
  /\ Fs.path_of atom1_file = atom1_path.
Proof. repeat split; reflexivity. Qed.

Lemma feeds_dir_made (ds : gset Fs.path) :
  feeds_path ∈ ds ∪ {[ [lit "public"]; feeds_path ]}.
Proof. set_solver. Qed.

Lemma file_not_made (ds : gset Fs.path) (p : Fs.path) :
  p ∉ ds -> length p = 3 -> p ∉ ds ∪ {[ [lit "public"]; feeds_path ]}.
Proof.
  intros Hp Hlen [?|[->%elem_of_singleton| ->%elem_of_singleton]%elem_of_union]%elem_of_union;
    [done|discriminate|discriminate].
Qed.



(** Unfolding the binds of the two monads. *)
Ltac unfold_binds :=
  unfold mbind, mret, completion_mbind, completion_ret, completion_bind,
    io_mbind, io_ret, io_bind, io_pure in *.

Lemma mkdirSync_feeds {X} fs :
  Fs.files fs !! [lit "public"] = None ->
  Fs.files fs !! feeds_path = None ->
  Fs.mkdirSync_recursive (X:=X) feeds_dir fs
  = (Fs.mk (Fs.dirs fs ∪ {[ [lit "public"]; feeds_path ]}) (Fs.files fs), Normal tt).
Proof.
  intros Hpub Hfeeds. unfold Fs.mkdirSync_recursive.
  change (Fs.path_of feeds_dir) with feeds_path.
  change (Fs.ancestors feeds_path) with [[lit "public"]; feeds_path].
  cbn [List.find]. rewrite Hpub, Hfeeds.
  rewrite !bool_decide_eq_false_2 by (by intros [? ?]).
  assert (list_to_set [[lit "public"]; feeds_path]
          =@{gset Fs.path} {[ [lit "public"]; feeds_path ]}) as -> by set_solver.
  done.
Qed.

(** A file below an existing directory that is no directory itself is
    written, whatever it held. *)
Lemma writeFileSync_ok {X} (p : str) (target parent : Fs.path) (data : str) fs :
  Fs.path_of p = target ->
  removelast target = parent ->
  target ∉ Fs.dirs fs ->
  parent ∈ Fs.dirs fs ->
  Fs.writeFileSync (X:=X) p data fs
  = (Fs.mk (Fs.dirs fs) (<[target := data]> (Fs.files fs)), Normal tt).
Proof.
  intros <- <- Ht Hp. unfold Fs.writeFileSync.
  rewrite bool_decide_eq_false_2 by done.
  rewrite bool_decide_eq_false_2 by (by intros [_ ?]).
  done.
Qed.

Lemma mkdirSync_feeds_inv {X} fs fs' :
  Fs.mkdirSync_recursive (X:=X) feeds_dir fs = (fs', Normal tt) ->
  Fs.files fs !! [lit "public"] = None /\ Fs.files fs !! feeds_path = None.
Proof.
  unfold Fs.mkdirSync_recursive.
  change (Fs.path_of feeds_dir) with feeds_path.
  change (Fs.ancestors feeds_path) with [[lit "public"]; feeds_path].
  cbn [List.find].
  destruct (Fs.files fs !! [lit "public"]) as [d|] eqn:E1.
  { rewrite bool_decide_eq_true_2 by (by exists d). intros [=]. }
  rewrite bool_decide_eq_false_2 by (by intros [? ?]).
  destruct (Fs.files fs !! feeds_path) as [d|] eqn:E2.
  { rewrite bool_decide_eq_true_2 by (by exists d). intros [=]. }
  done.
Qed.

Lemma writeFileSync_inv {X} (p data : str) fs fs' :
  Fs.writeFileSync (X:=X) p data fs = (fs', Normal tt) ->
  (Fs.path_of p ∉ Fs.dirs fs)
  /\ fs' = Fs.mk (Fs.dirs fs) (<[Fs.path_of p := data]> (Fs.files fs)).
Proof.
  unfold Fs.writeFileSync.
  destruct (bool_decide (Fs.path_of p ∈ Fs.dirs fs)) eqn:E1; [intros [=]|].
  destruct (bool_decide (_ /\ _)); [intros [=]|].
  intros [= <-]. split; [|done]. by apply bool_decide_eq_false in E1.
Qed.

Lemma io_bind_Normal {X A B} (m : IO X A) (f : A -> IO X B) fs fs' (b : B) :
  (m ≫= f) fs = (fs', Normal b) ->
  exists fs1 a, m fs = (fs1, Normal a) /\ f a fs1 = (fs', Normal b).
Proof.
  unfold_binds. destruct (m fs) as [fs1 [a|e]]; [|intros [=]].
  intros H. by exists fs1, a.
Qed.

Section FeedFacts.

Variable C : Constants.
Variables MdxSource Date X : Type.
Variable renderToStaticMarkup : MdxSource -> completion X str.
Variable parseISO : str -> Date.
Variable getPosts : str -> Fs.t -> completion X (list (IPost.t MdxSource)).
Variables rss2 json1 atom1 : Feed.t Date -> str.

Local Abbreviation makeItem := (makeFeedItem C renderToStaticMarkup parseISO).
Local Abbreviation addAll := (addItems C renderToStaticMarkup parseISO).
Local Abbreviation run :=
  (generateMainFeeds C renderToStaticMarkup parseISO getPosts rss2 json1 atom1).

Implicit Types (post : IPost.t MdxSource) (posts : list (IPost.t MdxSource)).
Implicit Types (item : Item.t Date) (feed : Feed.t Date) (fs : Fs.t).

(** An item is built exactly when the renderer gives a markup string. *)
Lemma makeFeedItem_Normal post item :
  makeItem post = Normal item ->
  exists rendered,
    renderToStaticMarkup (IPost.mdxSource post) = Normal rendered
    /\ item = Item.mk
         (IPost.title (IPost.metadata post))
         (url C (IPost.slug (IPost.metadata post)))
         (url C (IPost.slug (IPost.metadata post)))
         (IPost.summary (IPost.metadata post))
         (parseISO (IPost.publishedAt (IPost.metadata post)))
         (cleanHtmlContent C (IPost.slug (IPost.metadata post)) rendered).
Proof.
  unfold makeFeedItem. unfold_binds. intros H.
  destruct (renderToStaticMarkup (IPost.mdxSource post)) as [rendered|x]; [|done].
  exists rendered. split; [done|]. by injection H.
Qed.

Lemma makeFeedItem_Throw post x :
  makeItem post = Throw x <-> renderToStaticMarkup (IPost.mdxSource post) = Throw x.
Proof.
  unfold makeFeedItem. unfold_binds.
  destruct (renderToStaticMarkup (IPost.mdxSource post)); simpl; split; congruence.
Qed.

(** The loop adds the items of the posts in the order of the posts. *)
Lemma addItems_Normal posts feed feed' :
  addAll posts feed = Normal feed' ->
  exists its,
    Forall2 (fun post item => makeItem post = Normal item) posts its
    /\ feed' = Feed.mk (Feed.options feed) (Feed.items feed ++ its).
Proof.
  revert feed. induction posts as [|post posts IH]; intros feed; simpl.
  - intros [= <-]. exists []. split; [constructor|].
    destruct feed. simpl. by rewrite app_nil_r.
  - unfold addItems. cbn [forEach].
    destruct (makeItem post) as [item|x] eqn:E; [|done]. unfold_binds.
    intros (its & Hits & ->)%IH. exists (item :: its). split; [by constructor|].
    simpl. by rewrite <- app_assoc.
Qed.

(** The loop ends with the exception of the first post whose item cannot be
    built. *)
Lemma addItems_Throw posts feed :
  Exists (fun post => exists x, makeItem post = Throw x) posts ->
  exists x, addAll posts feed = Throw x
    /\ Exists (fun post => makeItem post = Throw x) posts.
Proof.
  revert feed. induction posts as [|post posts IH]; intros feed Hex.
  - inversion Hex.
  - unfold addItems. cbn [forEach].
    destruct (makeItem post) as [item|x] eqn:E; unfold_binds.
    + apply Exists_cons in Hex as [[x Hx]|Hex]; [congruence|].
      destruct (IH (Feed.addItem feed item) Hex) as (x & Hrun & Hx).
      exists x. split; [done|]. by apply Exists_cons_tl.
    + exists x. split; [done|]. by apply Exists_cons_hd.
Qed.

(** Once the items are built, the run creates the directory and writes the
    three documents of the one feed, if the file system lets it. *)
Lemma emit_writable feed fs :
  feeds_writable fs ->
  ((_ ← Fs.mkdirSync_recursive feeds_dir;
    _ ← Fs.writeFileSync rss2_file (rss2 feed);
    _ ← Fs.writeFileSync json1_file (json1 feed);
    Fs.writeFileSync atom1_file (atom1 feed)) : IO X unit) fs
  = (with_feeds (rss2 feed) (json1 feed) (atom1 feed) fs, Normal tt).
Proof.
  intros (Hpub & Hfeeds & Hrss & Hjson & Hatom).
  unfold_binds. rewrite mkdirSync_feeds by done.
  rewrite (writeFileSync_ok rss2_file rss2_path feeds_path);
    [|done|done|by apply file_not_made|apply feeds_dir_made].
  rewrite (writeFileSync_ok json1_file json1_path feeds_path);
    [|done|done|by apply file_not_made|apply feeds_dir_made].
  rewrite (writeFileSync_ok atom1_file atom1_path feeds_path);
    [|done|done|by apply file_not_made|apply feeds_dir_made].
  done.
Qed.

Lemma emit_inv feed fs fs' :
  ((_ ← Fs.mkdirSync_recursive feeds_dir;
    _ ← Fs.writeFileSync rss2_file (rss2 feed);
    _ ← Fs.writeFileSync json1_file (json1 feed);
    Fs.writeFileSync atom1_file (atom1 feed)) : IO X unit) fs
  = (fs', Normal tt) ->
  feeds_writable fs.
Proof.
  intros (fs1 & [] & Hmk & H)%io_bind_Normal.
  apply io_bind_Normal in H as (fs2 & [] & Hrss & H).
  apply io_bind_Normal in H as (fs3 & [] & Hjson & Hatom).
  pose proof (mkdirSync_feeds_inv _ _ Hmk) as [Hpub Hfeeds].
  rewrite mkdirSync_feeds in Hmk by done. injection Hmk as <-.
  apply writeFileSync_inv in Hrss as [Hr ->].
  apply writeFileSync_inv in Hjson as [Hj ->].
  apply writeFileSync_inv in Hatom as [Ha _].
  cbn [Fs.dirs] in Hr, Hj, Ha.
  repeat split; try done.
  - intros Hin. apply Hr, elem_of_union. left. exact Hin.
  - intros Hin. apply Hj, elem_of_union. left. exact Hin.
  - intros Hin. apply Ha, elem_of_union. left. exact Hin.
Qed.

(** The three ways a run ends. *)
Lemma run_loader_Throw fs x :
  getPosts (lit "notes") fs = Throw x -> run fs = (fs, Throw (Fs.Thrown x)).
Proof. unfold generateMainFeeds. unfold_binds. by intros ->. Qed.

Lemma run_item_Throw fs posts x :
  getPosts (lit "notes") fs = Normal posts ->
  addAll posts (buildFeed C) = Throw x ->
  run fs = (fs, Throw (Fs.Thrown x)).
Proof. unfold generateMainFeeds. unfold_binds. by intros -> ->. Qed.

Lemma run_emit fs posts feed :
  getPosts (lit "notes") fs = Normal posts ->
  addAll posts (buildFeed C) = Normal feed ->
  run fs
  = ((_ ← Fs.mkdirSync_recursive feeds_dir;
      _ ← Fs.writeFileSync rss2_file (rss2 feed);
      _ ← Fs.writeFileSync json1_file (json1 feed);
      Fs.writeFileSync atom1_file (atom1 feed)) : IO X unit) fs.
Proof. unfold generateMainFeeds. unfold_binds. by intros -> ->. Qed.

Lemma run_Normal fs posts feed :
  getPosts (lit "notes") fs = Normal posts ->
  addAll posts (buildFeed C) = Normal feed ->
  feeds_writable fs ->
  run fs = (with_feeds (rss2 feed) (json1 feed) (atom1 feed) fs, Normal tt).
Proof.
  intros Hposts Hfeed Hw. by rewrite (run_emit _ _ _ Hposts Hfeed), emit_writable.
Qed.

Lemma run_Normal_inv fs fs' :
  run fs = (fs', Normal tt) ->
  exists posts feed,
    getPosts (lit "notes") fs = Normal posts
    /\ addAll posts (buildFeed C) = Normal feed
    /\ feeds_writable fs
    /\ fs' = with_feeds (rss2 feed) (json1 feed) (atom1 feed) fs.
Proof.
  intros Hrun.
  destruct (getPosts (lit "notes") fs) as [posts|x] eqn:Hposts.
  2: { rewrite (run_loader_Throw _ _ Hposts) in Hrun. discriminate. }
  destruct (addAll posts (buildFeed C)) as [feed|x] eqn:Hfeed.
  2: { rewrite (run_item_Throw _ _ _ Hposts Hfeed) in Hrun. discriminate. }
  rewrite (run_emit _ _ _ Hposts Hfeed) in Hrun.
  pose proof (emit_inv _ _ _ Hrun) as Hw.
  rewrite emit_writable in Hrun by done. injection Hrun as <-.
  by exists posts, feed.
Qed.

(** C1.  The item [makeFeedItem] builds for a post has an [id] and a [link]
    that are the same string, the canonical URL [BASE_URL + "/notes/" +
    slug] of the post; and so has every item of the feed the loop of
    [generateMainFeeds] assembles, each for the post at its place. *)
Theorem feed_item_id_is_link :
  (forall post item,
     makeItem post = Normal item ->
     Item.id item = Item.link item
     /\ Item.link item = BASE_URL C ++ lit "/notes/" ++ IPost.slug (IPost.metadata post))
  /\ (forall posts feed,
        addAll posts (buildFeed C) = Normal feed ->
        Forall2
          (fun post item =>
             Item.id item = Item.link item
             /\ Item.link item
                = BASE_URL C ++ lit "/notes/" ++ IPost.slug (IPost.metadata post))
          posts (Feed.items feed)).
Proof.
  assert (forall post item,
     makeItem post = Normal item ->
     Item.id item = Item.link item
     /\ Item.link item = BASE_URL C ++ lit "/notes/" ++ IPost.slug (IPost.metadata post))
    as Hone.
  { intros post item (rendered & _ & ->)%makeFeedItem_Normal. by split. }
  split; [exact Hone|].
  intros posts feed (its & Hits & ->)%addItems_Normal. simpl.
  induction Hits as [|post item posts its Hitem _ IH]; constructor; [|done].
  by apply Hone.
Qed.

(** C6.  [addItem] only appends: after any sequence of [addItem] calls on a
    new feed the items are the items added, in the order they were added,
    and the channel's options are the ones it was created with; one call
    leaves the items that were there in place and puts the new one last.
    The loop of [generateMainFeeds] adds one item per post in the order
    [getPosts] gave the posts in; nothing sorts them. *)
Theorem addItem_appends_in_order :
  (forall (o : FeedOptions.t) (its : list (Item.t Date)),
     Feed.items (foldl Feed.addItem (Feed.new o) its) = its
     /\ Feed.options (foldl Feed.addItem (Feed.new o) its) = o)
  /\ (forall feed item,
        Feed.items (Feed.addItem feed item) = Feed.items feed ++ [item])
  /\ (forall posts feed,
        addAll posts (buildFeed C) = Normal feed ->
        Forall2 (fun post item => makeItem post = Normal item)
          posts (Feed.items feed)).
Proof.
  split; [|split].
  - intros o its.
    assert (forall feed : Feed.t Date,
      foldl Feed.addItem feed its
      = Feed.mk (Feed.options feed) (Feed.items feed ++ its)) as Hfold.
    { induction its as [|item its IH]; intros feed; simpl.
      - destruct feed. simpl. by rewrite app_nil_r.
      - rewrite IH. simpl. by rewrite <- app_assoc. }
    by rewrite Hfold.
  - done.
  - by intros posts feed (its & Hits & ->)%addItems_Normal.
Qed.

(** C5.  If the item of any post cannot be built, [generateMainFeeds] ends
    with the exception that building threw, and the file system is as it
    was: no directory is created and none of the three files is written.  A
    run that completes has built the item of every post and has written the
    three documents of that one feed.  So, on a file system that lets the
    feeds be written, a run either changes nothing or writes all three
    documents of the feed that holds the item of every post. *)
Theorem item_failure_writes_nothing :
  (forall fs posts,
     getPosts (lit "notes") fs = Normal posts ->
     Exists (fun post => exists x, makeItem post = Throw x) posts ->
     exists x,
       run fs = (fs, Throw (Fs.Thrown x))
       /\ Exists (fun post => makeItem post = Throw x) posts)
  /\ (forall fs fs',
        run fs = (fs', Normal tt) ->
        exists posts feed,
          getPosts (lit "notes") fs = Normal posts
          /\ Forall2 (fun post item => makeItem post = Normal item)
               posts (Feed.items feed)
          /\ fs' = with_feeds (rss2 feed) (json1 feed) (atom1 feed) fs)
  /\ (forall fs posts,
        getPosts (lit "notes") fs = Normal posts ->
        feeds_writable fs ->
        (exists x, run fs = (fs, Throw (Fs.Thrown x)))
        \/ (exists feed,
              Forall2 (fun post item => makeItem post = Normal item)
                posts (Feed.items feed)
              /\ run fs
                 = (with_feeds (rss2 feed) (json1 feed) (atom1 feed) fs, Normal tt))).
Proof.
  split; [|split].
  - intros fs posts Hposts Hex.
    destruct (addItems_Throw posts (buildFeed C) Hex) as (x & Hthrow & Hx).
    exists x. split; [|done]. by eapply run_item_Throw.
  - intros fs fs' (posts & feed & Hposts & Hfeed & _ & ->)%run_Normal_inv.
    exists posts, feed. split; [done|]. split; [|done].
    by apply addItems_Normal in Hfeed as (its & Hits & ->).
  - intros fs posts Hposts Hw.
    destruct (addAll posts (buildFeed C)) as [feed|x] eqn:Hfeed.
    + right. exists feed. split; [|by apply (run_Normal fs posts)].
      by apply addItems_Normal in Hfeed as (its & Hits & ->).
    + left. exists x. by eapply run_item_Throw.
Qed.


End FeedFacts.

(** *** Runs at their times *)

Section FeedTimes.

Variable C : Constants.
Variables MdxSource Date X Time : Type.
Variable renderToStaticMarkup : MdxSource -> completion X str.
Variable parseISO : str -> Date.
Variable getPosts : str -> Fs.t -> completion X (list (IPost.t MdxSource)).
Variables rss2 json1 atom1 : Time -> Feed.t Date -> str.

Local Abbreviation makeItem := (makeFeedItem C renderToStaticMarkup parseISO).
Local Abbreviation addAll := (addItems C renderToStaticMarkup parseISO).
Local Abbreviation run_at :=
  (generateMainFeeds_at C renderToStaticMarkup parseISO getPosts rss2 json1 atom1).

Implicit Types (posts : list (IPost.t MdxSource)) (feed : Feed.t Date) (fs : Fs.t).
Implicit Types (now : Time).

Lemma run_at_Normal now fs posts feed :
  getPosts (lit "notes") fs = Normal posts ->
  addAll posts (buildFeed C) = Normal feed ->
  feeds_writable fs ->
  run_at now fs
  = (with_feeds (rss2 now feed) (json1 now feed) (atom1 now feed) fs, Normal tt).
Proof. apply run_Normal. Qed.

Lemma run_at_Normal_inv now fs fs' :
  run_at now fs = (fs', Normal tt) ->
  exists posts feed,
    getPosts (lit "notes") fs = Normal posts
    /\ addAll posts (buildFeed C) = Normal feed
    /\ feeds_writable fs
    /\ fs' = with_feeds (rss2 now feed) (json1 now feed) (atom1 now feed) fs.
Proof. apply run_Normal_inv. Qed.


End FeedTimes.



(** *** What the sanitizer removes *)

Import Sanitizer.



(** A bracket that starts no tag can join what follows a removed element
    to a tag: the output of a renderer has no such bracket. *)
Example stray_bracket_joins :
  stripHtml (lit "<<script></script>script>") stripOpts = lit "<script>"
  /\ brackets_open_tags (lit "<<script></script>script>") = false.
Proof. split; reflexivity. Qed.

(** ** The model at work *)

(** The scenario of the specification: the item of the post [hello-world]. *)
Example hello_world_item :
  makeFeedItem Demo.constants Demo.render Demo.parse Demo.hello
  = Normal Demo.hello_item.
Proof. reflexivity. Qed.

(** A run over this post from an empty file system writes the three
    documents; a run over this post and a broken one writes nothing. *)
Example hello_world_run :
  Demo.run [Demo.hello] Demo.empty_fs
  = (with_feeds
       (lit "rss https://BASEURL/notes/hello-world")
       (lit "json https://BASEURL/notes/hello-world")
       (lit "atom https://BASEURL/notes/hello-world")
       Demo.empty_fs,
     Normal tt)
  /\ Demo.run [Demo.hello; Demo.broken] Demo.empty_fs
     = (Demo.empty_fs, Throw (Fs.Thrown (lit "malformed compiledBody"))).
Proof. split; reflexivity. Qed.

(** A replacement text with a dollar sign is not inserted as it is. *)
Example dollar_in_slug :
  htmlContent Demo.constants (lit "a$$b")
    (lit "href=" ++ [dquote] ++ lit "/#x")
  = lit "href=" ++ [dquote] ++ lit "https://BASEURL/notes/a$b#x".
Proof. reflexivity. Qed.

Example feed_item_id_is_link_witness :
  makeFeedItem Demo.constants Demo.render Demo.parse Demo.hello
  = Normal Demo.hello_item
  /\ Item.id Demo.hello_item = Item.link Demo.hello_item
  /\ Item.link Demo.hello_item
     = BASE_URL Demo.constants ++ lit "/notes/"
       ++ IPost.slug (IPost.metadata Demo.hello).
Proof.
  split; [reflexivity|].
  apply (proj1 (feed_item_id_is_link Demo.constants (option str) str str
                  Demo.render Demo.parse) Demo.hello Demo.hello_item).
  reflexivity.
Defined.

Example addItem_appends_in_order_witness :
  addItems Demo.constants Demo.render Demo.parse [Demo.hello]
    (buildFeed Demo.constants)
  = Normal (Feed.addItem (buildFeed Demo.constants) Demo.hello_item)
  /\ Forall2
       (fun post item =>
          makeFeedItem Demo.constants Demo.render Demo.parse post = Normal item)
       [Demo.hello]
       (Feed.items (Feed.addItem (buildFeed Demo.constants) Demo.hello_item)).
Proof.
  split; [reflexivity|].
  apply (proj2 (proj2 (addItem_appends_in_order Demo.constants (option str) str str
                         Demo.render Demo.parse)) [Demo.hello]).
  reflexivity.
Defined.

Example item_failure_writes_nothing_witness :
  Demo.loader [Demo.hello; Demo.broken] (lit "notes") Demo.stale_fs
  = Normal [Demo.hello; Demo.broken]
  /\ Exists
       (fun post =>
          exists x, makeFeedItem Demo.constants Demo.render Demo.parse post = Throw x)
       [Demo.hello; Demo.broken]
  /\ exists x,
       Demo.run [Demo.hello; Demo.broken] Demo.stale_fs
       = (Demo.stale_fs, Throw (Fs.Thrown x))
       /\ Exists
            (fun post =>
               makeFeedItem Demo.constants Demo.render Demo.parse post = Throw x)
            [Demo.hello; Demo.broken].
Proof.
  assert (Exists
            (fun post =>
               exists x,
                 makeFeedItem Demo.constants Demo.render Demo.parse post = Throw x)
            [Demo.hello; Demo.broken]) as Hex.
  { apply Exists_cons_tl, Exists_cons_hd.
    exists (lit "malformed compiledBody"). reflexivity. }
  split; [reflexivity|]. split; [exact Hex|].
  apply (proj1 (item_failure_writes_nothing Demo.constants (option str) str str
                  Demo.render Demo.parse (Demo.loader [Demo.hello; Demo.broken])
                  (Demo.document (lit "rss")) (Demo.document (lit "json"))
                  (Demo.document (lit "atom")))
           Demo.stale_fs [Demo.hello; Demo.broken]);
    [reflexivity|exact Hex].
Defined.

Example links_are_rewritten_witness :
  let C := Demo.constants in
  let slug := lit "hello-world" in
  let pre := lit "<p>See <a " in
  let post := lit "about" ++ [dquote] ++ lit ">about</a></p>" in
  absolute (BASE_URL C) = true
  /\ plain slug = true
  /\ starts_with (lit "#") post = false
  /\ htmlContent C slug (pre ++ (lit "href=" ++ [dquote] ++ lit "/#") ++ post)
     = htmlContent C slug pre
       ++ (lit "href=" ++ [dquote] ++ url C slug ++ lit "#")
       ++ htmlContent C slug post
  /\ htmlContent C slug (pre ++ (lit "href=" ++ [dquote] ++ lit "/") ++ post)
     = htmlContent C slug pre
       ++ (lit "href=" ++ [dquote] ++ BASE_URL C ++ lit "/")
       ++ htmlContent C slug post
  /\ htmlContent C slug (pre ++ (lit "src=" ++ [dquote] ++ lit "/") ++ post)
     = htmlContent C slug pre
       ++ (lit "src=" ++ [dquote] ++ BASE_URL C ++ lit "/")
       ++ htmlContent C slug post.
Proof.
  cbv zeta.
  destruct (links_are_rewritten Demo.constants (lit "hello-world")
              (lit "<p>See <a ") (lit "about" ++ [dquote] ++ lit ">about</a></p>")
              eq_refl eq_refl) as (Hanchor & Hroot & Hsrc).
  split; [reflexivity|]. split; [reflexivity|]. split; [reflexivity|].
  split; [exact Hanchor|]. split; [exact (Hroot eq_refl)|exact Hsrc].
Defined.

(** A [src] that starts with [/#] gets the base URL in front, and is not
    turned into the canonical URL of the post followed by the anchor: the
    call that rewrites anchors looks for [href] only. *)
Lemma src_anchor_gets_base_url :
  htmlContent Demo.constants (lit "hello-world") Demo.iframe_markup
  = lit "<iframe src=" ++ [dquote] ++ lit "https://BASEURL/#about" ++ [dquote]
    ++ lit "></iframe>"
  /\ htmlContent Demo.constants (lit "hello-world") Demo.iframe_markup
     <> lit "<iframe src=" ++ [dquote]
        ++ url Demo.constants (lit "hello-world") ++ lit "#about" ++ [dquote]
        ++ lit "></iframe>".
Proof.
  split; [reflexivity|].
  apply (bool_decide_unpack _). vm_compute. exact I.
Qed.



(** ** What the Link Rewriter leaves behind *)

Section Occurrences.

Implicit Types p r s t a b q : str.

Lemma occurs_in_spec p s :
  occurs_in p s = true <-> exists a b, s = a ++ p ++ b.
Proof.
  split.
  - induction s as [|c s IH]; simpl.
    + rewrite orb_false_r. intros [k Hk]%starts_with_prefix. by exists [], k.
    + intros [[k Hk]%starts_with_prefix|Hs]%orb_true_iff.
      * by exists [], k.
      * destruct (IH Hs) as (a & b & ->). by exists (c :: a), b.
  - intros (a & b & ->). induction a as [|c a IH]; simpl.
    + destruct p as [|x p]; [by destruct b|].
      change (starts_with (x :: p) ((x :: p) ++ b) || occurs_in (x :: p) (p ++ b) = true).
      by rewrite starts_with_app.
    + rewrite IH. apply orb_true_r.
Qed.

Lemma occurs_in_false p s :
  occurs_in p s = false <-> forall a b, s <> a ++ p ++ b.
Proof.
  split.
  - intros H a b ->. assert (occurs_in p (a ++ p ++ b) = true) as H'.
    { apply occurs_in_spec. by exists a, b. }
    congruence.
  - intros H. destruct (occurs_in p s) eqn:E; [|done].
    apply occurs_in_spec in E as (a & b & ->). by destruct (H a b).
Qed.

Lemma occurs_in_cons p c s :
  occurs_in p (c :: s) = false ->
  starts_with p (c :: s) = false /\ occurs_in p s = false.
Proof. simpl. by intros [? ?]%orb_false_iff. Qed.

Lemma occurs_in_app_r p a s :
  occurs_in p (a ++ s) = false -> occurs_in p s = false.
Proof.
  rewrite !occurs_in_false. intros H x y ->. apply (H (a ++ x) y).
  by rewrite <- app_assoc.
Qed.

Lemma occurs_in_longer p x s :
  occurs_in p s = false -> occurs_in (p ++ x) s = false.
Proof.
  rewrite !occurs_in_false. intros H a b ->. apply (H a (x ++ b)).
  by rewrite <- !app_assoc.
Qed.

(** Without a match the scan copies the subject, whatever the replacement
    is. *)
Lemma replace_scan_free p sub n before s :
  occurs_in p s = false -> JS.replace_scan p sub n before s = s.
Proof.
  revert before s. induction n as [|n IH]; intros before s Hs; [done|].
  destruct s as [|c s]; [done|].
  apply occurs_in_cons in Hs as [Hhd Hs].
  cbn [JS.replace_scan]. rewrite Hhd. f_equal. by apply IH.
Qed.

Lemma replace_free p tmpl s :
  occurs_in p s = false -> JS.replace p tmpl s = s.
Proof. apply replace_scan_free. Qed.

Lemma replace_lit_free_id p r s :
  occurs_in p s = false -> JS.replace_lit p r s = s.
Proof. apply replace_scan_free. Qed.

(** The scan is one of three: nothing, a match, or a copied character. *)
Lemma replace_lit_cases p r s :
  p <> [] ->
  s = []
  \/ (exists s', s = p ++ s' /\ JS.replace_lit p r s = r ++ JS.replace_lit p r s')
  \/ (exists c s', s = c :: s' /\ starts_with p s = false
        /\ JS.replace_lit p r s = c :: JS.replace_lit p r s').
Proof.
  intros Hp. destruct s as [|c s]; [by left|]. right.
  destruct (starts_with p (c :: s)) eqn:E.
  - left. apply starts_with_prefix in E as [k Hk]. exists k. split; [done|].
    rewrite Hk. by apply replace_lit_match.
  - right. exists c, s. split; [done|]. split; [done|]. by apply replace_lit_step.
Qed.

(** A text that does not hold the first character of the replacement
    starts the output only if it starts the input. *)
Lemma replace_lit_prefix p r c r0 q s :
  p <> [] -> r = c :: r0 -> c ∉ q ->
  starts_with q (JS.replace_lit p r s) = true -> starts_with q s = true.
Proof.
  intros Hp Hr. revert s. induction q as [|x q IH]; intros s Hc; [done|].
  apply not_elem_of_cons in Hc as [Hcx Hc].
  destruct (replace_lit_cases p r s Hp) as [->|[(s' & -> & E)|(d & s' & -> & _ & E)]].
  - done.
  - rewrite E, Hr. cbn [app]. rewrite starts_with_head by congruence. done.
  - rewrite E. simpl. intros [Hxd Hq]%andb_true_iff.
    rewrite Hxd. simpl. by apply IH.
Qed.

(** A replacement that can neither hold nor complete a match of [q]: the
    output of replacing [p] by it holds no [q], when [p] is [q] itself or
    the input holds no [q]. *)
Lemma replace_lit_leaves_none q p r c r0 d r1 s :
  p <> [] -> q <> [] ->
  r = c :: r0 -> c ∉ tail q ->
  r = r1 ++ [d] -> d ∉ removelast q ->
  occurs_in q r = false ->
  p = q \/ occurs_in q s = false ->
  occurs_in q (JS.replace_lit p r s) = false.
Proof.
  intros Hp Hq Hr Hc Hr' Hd Hqr.
  remember (length s) as n eqn:Hn. revert s Hn.
  induction n as [n IH] using lt_wf_ind. intros s -> Hs.
  destruct (replace_lit_cases p r s Hp) as [->|[(s' & -> & E)|(x & s' & -> & Hhd & E)]].
  - destruct q; [done|]. reflexivity.
  - rewrite E. apply occurs_in_false. intros a b Hab.
    assert (occurs_in q (JS.replace_lit p r s') = false) as IHs'.
    { apply (IH (length s')); [|done|].
      - rewrite length_app. destruct p; [done|]. simpl. lia.
      - destruct Hs as [->|Hs]; [by left|right]. by eapply occurs_in_app_r. }
    apply app_eq_app in Hab as [l [[Hl1 Hl2]|[Hl1 Hl2]]].
    + apply app_eq_app in Hl2 as [l' [[Hq1 Hq2]|[Hq1 Hq2]]].
      * (* the match starts in the replacement and ends after it *)
        destruct l' as [|y l'].
        { rewrite app_nil_r in Hq1. subst l.
          rewrite occurs_in_false in Hqr. apply (Hqr a []).
          by rewrite app_nil_r. }
        destruct l as [|z l _] using rev_ind.
        { (* it starts right after the replacement *)
          simpl in Hq1. subst q.
          rewrite occurs_in_false in IHs'. apply (IHs' [] b). by rewrite Hq2. }
        apply Hd. rewrite Hq1, <- app_assoc. cbn [app].
        rewrite removelast_app by done. apply elem_of_app. right.
        assert (z = d) as ->.
        { rewrite Hr', app_assoc in Hl1. by apply app_inj_tail in Hl1 as [_ ->]. }
        simpl. left.
      * (* the match lies in the replacement *)
        rewrite occurs_in_false in Hqr. apply (Hqr a l'). by rewrite Hl1, Hq1.
    + (* the match lies after the replacement *)
      rewrite occurs_in_false in IHs'. by eapply IHs'.
  - rewrite E. simpl. apply orb_false_iff. split.
    + destruct (starts_with q (x :: JS.replace_lit p r s')) eqn:Eq; [|done].
      exfalso. destruct q as [|y q]; [done|]. simpl in Eq, Hc.
      apply andb_true_iff in Eq as [Hyx Hq'].
      apply (replace_lit_prefix p r c r0 q s' Hp Hr Hc) in Hq'.
      assert (starts_with (y :: q) (x :: s') = true) as Hfull.
      { simpl. by rewrite Hyx, Hq'. }
      destruct Hs as [->|Hs]; [congruence|].
      apply occurs_in_cons in Hs as [? _]. congruence.
    + apply (IH (length s')); [simpl; lia|done|].
      destruct Hs as [->|Hs]; [by left|right]. by apply occurs_in_cons in Hs as [_ ?].
Qed.

(** A text with one double quote, followed by something else than [d],
    holds no text that ends in a double quote and [d]. *)
Lemma quote_once (u x y : str) (d : ascii) :
  dquote ∉ x -> dquote ∉ y -> starts_with [d] y = false ->
  occurs_in (u ++ [dquote; d]) (x ++ dquote :: y) = false.
Proof.
  intros Hx Hy Hd. apply occurs_in_false. intros a b Hab.
  rewrite <- app_assoc in Hab. rewrite (app_assoc a u) in Hab. cbn [app] in Hab.
  assert (forall b', y <> d :: b') as Hy'.
  { intros b' ->. simpl in Hd. by rewrite Ascii.eqb_refl in Hd. }
  apply app_eq_app in Hab as [l [[Hl1 Hl2]|[Hl1 Hl2]]].
  - destruct l as [|z l].
    + injection Hl2 as Hl2. by destruct (Hy' b).
    + injection Hl2 as <- Hl2. apply Hx. rewrite Hl1.
      apply elem_of_app. right. left.
  - destruct l as [|z l].
    + injection Hl2 as Hl2. by destruct (Hy' b).
    + injection Hl2 as <- Hl2. apply Hy. rewrite Hl2.
      apply elem_of_app. right. left.
Qed.

End Occurrences.

Lemma href_root_free_of_replacement (base : str) (name : str) :
  dquote ∉ name -> dquote ∉ base -> starts_with [slash] (base ++ [slash]) = false ->
  occurs_in href_root_pattern (name ++ [dquote] ++ base ++ [slash]) = false
  /\ occurs_in src_root_pattern (name ++ [dquote] ++ base ++ [slash]) = false.
Proof.
  intros Hname Hbase Hroot. split.
  - apply (quote_once (lit "href=") name (base ++ [slash]) slash); [done| |done].
    rewrite not_elem_of_app. split; [done|solve_elem].
  - apply (quote_once (lit "src=") name (base ++ [slash]) slash); [done| |done].
    rewrite not_elem_of_app. split; [done|solve_elem].
Qed.

(** After the three calls no reference that starts at the site's root is
    left. *)
Lemma no_root_reference_left (C : Constants) (slug s : str) :
  absolute (BASE_URL C) = true ->
  plain slug = true ->
  occurs_in href_root_pattern (htmlContent C slug s) = false
  /\ occurs_in href_anchor_pattern (htmlContent C slug s) = false
  /\ occurs_in src_root_pattern (htmlContent C slug s) = false.
Proof.
  intros Hbase Hslug. rewrite htmlContent_lit by done.
  pose proof (base_quote C Hbase) as Hq.
  pose proof (base_not_root C Hbase [slash]) as Hroot.
  destruct (href_root_free_of_replacement (BASE_URL C) (lit "href=")) as [Hhh Hsh];
    [solve_elem|done|done|].
  destruct (href_root_free_of_replacement (BASE_URL C) (lit "src=")) as [Hhs Hss];
    [solve_elem|done|done|].
  assert (occurs_in href_root_pattern
            (JS.replace_lit src_root_pattern (lit "src=" ++ [dquote] ++ BASE_URL C ++ [slash])
               (JS.replace_lit href_root_pattern
                  (lit "href=" ++ [dquote] ++ BASE_URL C ++ [slash])
                  (JS.replace_lit href_anchor_pattern
                     (lit "href=" ++ [dquote] ++ url C slug ++ [hash]) s))) = false)
    as Hhref.
  { apply (replace_lit_leaves_none href_root_pattern src_root_pattern _
             "s"%char (lit "rc=" ++ [dquote] ++ BASE_URL C ++ [slash])
             slash (lit "src=" ++ [dquote] ++ BASE_URL C));
      [done|done|done|solve_elem|by rewrite <- !app_assoc|solve_elem|done|].
    right.
    apply (replace_lit_leaves_none href_root_pattern href_root_pattern _
             "h"%char (lit "ref=" ++ [dquote] ++ BASE_URL C ++ [slash])
             slash (lit "href=" ++ [dquote] ++ BASE_URL C));
      [done|done|done|solve_elem|by rewrite <- !app_assoc|solve_elem|done|by left]. }
  split; [exact Hhref|]. split.
  - change href_anchor_pattern with (href_root_pattern ++ [hash]).
    by apply occurs_in_longer.
  - apply (replace_lit_leaves_none src_root_pattern src_root_pattern _
             "s"%char (lit "rc=" ++ [dquote] ++ BASE_URL C ++ [slash])
             slash (lit "src=" ++ [dquote] ++ BASE_URL C));
      [done|done|done|solve_elem|by rewrite <- !app_assoc|solve_elem|done|by left].
Qed.

(** Without such a reference the three calls change nothing. *)
Lemma unchanged_without_root_reference (C : Constants) (slug s : str) :
  occurs_in href_root_pattern s = false ->
  occurs_in src_root_pattern s = false ->
  htmlContent C slug s = s.
Proof.
  intros Hhref Hsrc. unfold htmlContent.
  rewrite (replace_free href_anchor_pattern).
  - by rewrite (replace_free href_root_pattern), (replace_free src_root_pattern).
  - change href_anchor_pattern with (href_root_pattern ++ [hash]).
    by apply occurs_in_longer.
Qed.

(** X1.  For a base URL that is absolute (not empty, not starting with a
    slash, without a double quote or a dollar sign) and a slug without a
    double quote or a dollar sign, the markup [makeFeedItem] hands on holds no reference
    that starts at the site's root any more: no [href] and no [src] in it
    has a value that starts with a slash, whatever the rendered markup
    was. *)
Theorem htmlContent_leaves_no_root_reference (C : Constants) (slug s : str) :
  absolute (BASE_URL C) = true ->
  plain slug = true ->
  occurs_in href_root_pattern (htmlContent C slug s) = false
  /\ occurs_in href_anchor_pattern (htmlContent C slug s) = false
  /\ occurs_in src_root_pattern (htmlContent C slug s) = false.
Proof. apply no_root_reference_left. Qed.

(** X2.  Markup in which no [href] and no [src] has a value that starts
    with a slash passes the three [replace] calls unchanged, whatever the
    base URL and the slug are:
    references that do not start at the site's root (absolute URLs, anchors
    of the page, relative paths) and all other text are never touched. *)
Theorem htmlContent_keeps_other_references (C : Constants) (slug s : str) :
  occurs_in href_root_pattern s = false ->
  occurs_in src_root_pattern s = false ->
  htmlContent C slug s = s.
Proof. apply unchanged_without_root_reference. Qed.

(** X3.  Rewriting the links twice is rewriting them once: for a base URL
    that is absolute and a slug without a double quote or a dollar sign, the
    three [replace] calls leave their own output as it is. *)
Theorem htmlContent_idempotent (C : Constants) (slug s : str) :
  absolute (BASE_URL C) = true ->
  plain slug = true ->
  htmlContent C slug (htmlContent C slug s) = htmlContent C slug s.
Proof.
  intros Hbase Hslug.
  destruct (no_root_reference_left C slug s Hbase Hslug)
    as (Hhref & _ & Hsrc).
  by apply unchanged_without_root_reference.
Qed.

Example htmlContent_leaves_no_root_reference_witness :
  let s := lit "<a href=" ++ [dquote] ++ lit "/#a" ++ [dquote] ++ lit "><img src="
             ++ [dquote] ++ lit "/i.png" ++ [dquote] ++ lit "></a>" in
  absolute (BASE_URL Demo.constants) = true
  /\ plain (lit "hello-world") = true
  /\ occurs_in href_root_pattern (htmlContent Demo.constants (lit "hello-world") s) = false
  /\ occurs_in href_anchor_pattern (htmlContent Demo.constants (lit "hello-world") s) = false
  /\ occurs_in src_root_pattern (htmlContent Demo.constants (lit "hello-world") s) = false.
Proof.
  cbv zeta. split; [reflexivity|]. split; [reflexivity|].
  apply htmlContent_leaves_no_root_reference; reflexivity.
Defined.

Example htmlContent_keeps_other_references_witness :
  let s := lit "<a href=" ++ [dquote] ++ lit "https://plantuml.com/starting" ++ [dquote]
             ++ lit ">x</a><a href=" ++ [dquote] ++ lit "#hex" ++ [dquote] ++ lit ">y</a>" in
  occurs_in href_root_pattern s = false
  /\ occurs_in src_root_pattern s = false
  /\ htmlContent Demo.constants (lit "hello-world") s = s.
Proof.
  cbv zeta. split; [reflexivity|]. split; [reflexivity|].
  apply htmlContent_keeps_other_references; reflexivity.
Defined.

Example htmlContent_idempotent_witness :
  absolute (BASE_URL Demo.constants) = true
  /\ plain (lit "hello-world") = true
  /\ htmlContent Demo.constants (lit "hello-world")
       (htmlContent Demo.constants (lit "hello-world") Demo.hello_markup)
     = htmlContent Demo.constants (lit "hello-world") Demo.hello_markup.
Proof.
  split; [reflexivity|]. split; [reflexivity|].
  apply htmlContent_idempotent; reflexivity.
Defined.

(** ** Runs of [generateMainFeeds] *)

Lemma with_feeds_over (rss json atom rss' json' atom' : str) (fs : Fs.t) :
  with_feeds rss' json' atom' (with_feeds rss json atom fs)
  = with_feeds rss' json' atom' fs.
Proof.
  unfold with_feeds. cbn [Fs.dirs Fs.files]. f_equal.
  - by rewrite <- (assoc_L (∪)), (idemp_L (∪)).
  - apply map_eq. intros q. rewrite !lookup_insert. by repeat case_decide.
Qed.

Lemma with_feeds_writable (rss json atom : str) (fs : Fs.t) :
  feeds_writable fs -> feeds_writable (with_feeds rss json atom fs).
Proof.
  intros (Hpub & Hfeeds & Hr & Hj & Ha). unfold feeds_writable, with_feeds.
  cbn [Fs.dirs Fs.files].
  rewrite !lookup_insert_ne by discriminate.
  repeat split; try done; by apply file_not_made.
Qed.

Lemma with_feeds_other (rss json atom : str) (fs : Fs.t) (q : Fs.path) :
  q ∉ [rss2_path; json1_path; atom1_path] ->
  Fs.files (with_feeds rss json atom fs) !! q = Fs.files fs !! q.
Proof.
  rewrite !not_elem_of_cons. intros (Hr & Hj & Ha & _).
  unfold with_feeds. cbn [Fs.files]. by rewrite !lookup_insert_ne.
Qed.

(** The two operations on the file system either throw and leave it as it
    was, or do their one thing. *)
Lemma mkdirSync_feeds_cases {X} fs :
  Fs.mkdirSync_recursive (X:=X) feeds_dir fs = (fs, Throw (Fs.ENOTDIR feeds_path))
  \/ Fs.mkdirSync_recursive (X:=X) feeds_dir fs
     = (Fs.mk (Fs.dirs fs ∪ {[ [lit "public"]; feeds_path ]}) (Fs.files fs), Normal tt).
Proof.
  destruct (Fs.files fs !! [lit "public"]) as [d|] eqn:E1.
  { left. unfold Fs.mkdirSync_recursive.
    change (Fs.path_of feeds_dir) with feeds_path.
    change (Fs.ancestors feeds_path) with [[lit "public"]; feeds_path].
    change (Fs.trailing_slash feeds_dir) with true.
    cbn [List.find]. rewrite E1.
    rewrite (bool_decide_eq_true_2 (is_Some (Some d))) by (by exists d).
    by rewrite andb_false_r. }
  destruct (Fs.files fs !! feeds_path) as [d|] eqn:E2.
  { left. unfold Fs.mkdirSync_recursive.
    change (Fs.path_of feeds_dir) with feeds_path.
    change (Fs.ancestors feeds_path) with [[lit "public"]; feeds_path].
    change (Fs.trailing_slash feeds_dir) with true.
    cbn [List.find]. rewrite E1, E2.
    rewrite (bool_decide_eq_false_2 (is_Some None)) by (by intros [? ?]).
    rewrite (bool_decide_eq_true_2 (is_Some (Some d))) by (by exists d).
    by rewrite andb_false_r. }
  right. by apply mkdirSync_feeds.
Qed.

Lemma writeFileSync_cases {X} (p data : str) fs :
  (exists e,
     Fs.writeFileSync (X:=X) p data fs = (fs, Throw e)
     /\ (e = Fs.EISDIR (Fs.path_of p) \/ e = Fs.ENOENT (Fs.path_of p)))
  \/ Fs.writeFileSync (X:=X) p data fs
     = (Fs.mk (Fs.dirs fs) (<[Fs.path_of p := data]> (Fs.files fs)), Normal tt).
Proof.
  unfold Fs.writeFileSync.
  destruct (bool_decide (Fs.path_of p ∈ Fs.dirs fs)).
  { left. eexists. split; [done|by left]. }
  destruct (bool_decide (_ /\ _)).
  { left. eexists. split; [done|by right]. }
  by right.
Qed.

Lemma writeFileSync_EISDIR {X} (p data : str) fs :
  Fs.path_of p ∈ Fs.dirs fs ->
  Fs.writeFileSync (X:=X) p data fs = (fs, Throw (Fs.EISDIR (Fs.path_of p))).
Proof. intros Hp. unfold Fs.writeFileSync. by rewrite bool_decide_eq_true_2. Qed.

Lemma only_feeds_differ_refl fs : only_feeds_differ fs fs.
Proof.
  split; [done|]. split; [done|]. apply union_subseteq_l.
Qed.

Lemma only_feeds_differ_write fs fs' (q : Fs.path) (data : str) :
  q ∈ [rss2_path; json1_path; atom1_path] ->
  only_feeds_differ fs fs' ->
  only_feeds_differ fs (Fs.mk (Fs.dirs fs') (<[q := data]> (Fs.files fs'))).
Proof.
  intros Hq (Hfiles & Hsub & Hsup). split; [|done].
  intros q' Hq'. cbn [Fs.files].
  rewrite lookup_insert_ne by (intros ->; done). by apply Hfiles.
Qed.

Lemma only_feeds_differ_mkdir fs :
  only_feeds_differ fs
    (Fs.mk (Fs.dirs fs ∪ {[ [lit "public"]; feeds_path ]}) (Fs.files fs)).
Proof.
  split; [done|]. cbn [Fs.dirs]. split; [apply union_subseteq_l|done].
Qed.

Section FeedRuns.

Variable C : Constants.
Variables MdxSource Date X : Type.
Variable renderToStaticMarkup : MdxSource -> completion X str.
Variable parseISO : str -> Date.
Variable getPosts : str -> Fs.t -> completion X (list (IPost.t MdxSource)).
Variables rss2 json1 atom1 : Feed.t Date -> str.

Local Abbreviation makeItem := (makeFeedItem C renderToStaticMarkup parseISO).
Local Abbreviation addAll := (addItems C renderToStaticMarkup parseISO).
Local Abbreviation run :=
  (generateMainFeeds C renderToStaticMarkup parseISO getPosts rss2 json1 atom1).
Local Abbreviation emit feed :=
  ((_ ← Fs.mkdirSync_recursive feeds_dir;
    _ ← Fs.writeFileSync rss2_file (rss2 feed);
    _ ← Fs.writeFileSync json1_file (json1 feed);
    Fs.writeFileSync atom1_file (atom1 feed)) : IO X unit).

Implicit Types (post : IPost.t MdxSource) (posts : list (IPost.t MdxSource)).
Implicit Types (item : Item.t Date) (feed : Feed.t Date) (fs : Fs.t).

(** It throws what the first post that cannot be built throws. *)
Lemma addItems_first_Throw pre post rest feed x :
  Forall (fun p => exists item, makeItem p = Normal item) pre ->
  makeItem post = Throw x ->
  addAll (pre ++ post :: rest) feed = Throw x.
Proof.
  intros Hpre Hpost. revert feed.
  induction Hpre as [|p pre [item Hitem] _ IH]; intros feed.
  - unfold addItems. cbn [app forEach]. rewrite Hpost. by unfold_binds.
  - unfold addItems. cbn [app forEach]. rewrite Hitem. unfold_binds. apply IH.
Qed.

(** The writing part of a run, step by step. *)
Lemma emit_steps feed fs :
  let fs1 := Fs.mk (Fs.dirs fs ∪ {[ [lit "public"]; feeds_path ]}) (Fs.files fs) in
  let fs2 := Fs.mk (Fs.dirs fs1) (<[rss2_path := rss2 feed]> (Fs.files fs1)) in
  let fs3 := Fs.mk (Fs.dirs fs2) (<[json1_path := json1 feed]> (Fs.files fs2)) in
  let fs4 := Fs.mk (Fs.dirs fs3) (<[atom1_path := atom1 feed]> (Fs.files fs3)) in
  (exists e, emit feed fs = (fs, Throw e) /\ e = Fs.ENOTDIR feeds_path)
  \/ (exists e, emit feed fs = (fs1, Throw e)
        /\ (e = Fs.EISDIR rss2_path \/ e = Fs.ENOENT rss2_path))
  \/ (exists e, emit feed fs = (fs2, Throw e)
        /\ (e = Fs.EISDIR json1_path \/ e = Fs.ENOENT json1_path))
  \/ (exists e, emit feed fs = (fs3, Throw e)
        /\ (e = Fs.EISDIR atom1_path \/ e = Fs.ENOENT atom1_path))
  \/ emit feed fs = (fs4, Normal tt).
Proof.
  intros fs1 fs2 fs3 fs4. unfold_binds.
  destruct (mkdirSync_feeds_cases (X:=X) fs) as [->| ->].
  { left. by eexists. }
  right. fold fs1.
  destruct (writeFileSync_cases (X:=X) rss2_file (rss2 feed) fs1) as [(e & -> & He)| ->].
  { left. by exists e. }
  right. change (Fs.path_of rss2_file) with rss2_path. fold fs2.
  destruct (writeFileSync_cases (X:=X) json1_file (json1 feed) fs2) as [(e & -> & He)| ->].
  { left. by exists e. }
  right. change (Fs.path_of json1_file) with json1_path. fold fs3.
  destruct (writeFileSync_cases (X:=X) atom1_file (atom1 feed) fs3) as [(e & -> & He)| ->].
  { left. by exists e. }
  by right.
Qed.

Lemma emit_only_feeds_differ feed fs : only_feeds_differ fs (emit feed fs).1.
Proof.
  pose proof (only_feeds_differ_mkdir fs) as H1.
  pose proof (only_feeds_differ_write fs _ rss2_path (rss2 feed)
                ltac:(solve_elem) H1) as H2.
  pose proof (only_feeds_differ_write fs _ json1_path (json1 feed)
                ltac:(solve_elem) H2) as H3.
  pose proof (only_feeds_differ_write fs _ atom1_path (atom1 feed)
                ltac:(solve_elem) H3) as H4.
  destruct (emit_steps feed fs)
    as [(e & -> & _)|[(e & -> & _)|[(e & -> & _)|[(e & -> & _)| ->]]]];
    [apply only_feeds_differ_refl|done..].
Qed.

(** X4.  Whatever a run of [generateMainFeeds] ends with, it changes the
    file system only at the feeds: every file other than the three feed
    files holds what it held, no directory is removed, and no directory
    other than [public] and [public/feeds] is created. *)
Theorem run_changes_only_feeds fs :
  let fs' := (run fs).1 in
  (forall q, q ∉ [rss2_path; json1_path; atom1_path] ->
     Fs.files fs' !! q = Fs.files fs !! q)
  /\ Fs.dirs fs ⊆ Fs.dirs fs'
  /\ Fs.dirs fs' ⊆ Fs.dirs fs ∪ {[ [lit "public"]; feeds_path ]}.
Proof.
  cbv zeta. change (only_feeds_differ fs (run fs).1).
  destruct (getPosts (lit "notes") fs) as [posts|x] eqn:Hposts.
  2: { erewrite run_loader_Throw by done. apply only_feeds_differ_refl. }
  destruct (addAll posts (buildFeed C)) as [feed|x] eqn:Hfeed.
  2: { erewrite run_item_Throw by done. apply only_feeds_differ_refl. }
  erewrite run_emit by done. apply emit_only_feeds_differ.
Qed.

(** X6.  The posts are built in their order and the first one that cannot be
    built decides: when the renderer gives markup for every post before
    [post] and throws for [post], the run ends with that exception, however
    the posts after it would fare, and the file system is as it was. *)
Theorem first_failing_post_decides fs pre post rest x :
  getPosts (lit "notes") fs = Normal (pre ++ post :: rest) ->
  Forall
    (fun p => exists markup, renderToStaticMarkup (IPost.mdxSource p) = Normal markup)
    pre ->
  renderToStaticMarkup (IPost.mdxSource post) = Throw x ->
  run fs = (fs, Throw (Fs.Thrown x)).
Proof.
  intros Hposts Hpre Hpost. eapply run_item_Throw; [done|].
  apply addItems_first_Throw; [|by apply makeFeedItem_Throw].
  eapply Forall_impl; [exact Hpre|]. intros p [markup Hp].
  unfold makeFeedItem. rewrite Hp. unfold_binds. by eexists.
Qed.

(** X8.  The three files are written one after the other and a failed write
    is not undone: when every item is built and [public/feeds/feed.json] is
    a directory, the run ends with [EISDIR] for that path, after it has
    created the feeds directory and written [public/feeds/feed.xml]; the
    Atom document is not written. *)
Theorem failed_write_is_not_undone fs posts feed :
  getPosts (lit "notes") fs = Normal posts ->
  addAll posts (buildFeed C) = Normal feed ->
  Fs.files fs !! [lit "public"] = None ->
  Fs.files fs !! feeds_path = None ->
  rss2_path ∉ Fs.dirs fs ->
  json1_path ∈ Fs.dirs fs ->
  run fs
  = (Fs.mk (Fs.dirs fs ∪ {[ [lit "public"]; feeds_path ]})
       (<[rss2_path := rss2 feed]> (Fs.files fs)),
     Throw (Fs.EISDIR json1_path)).
Proof.
  intros Hposts Hfeed Hpub Hfeeds Hrss Hjson.
  erewrite run_emit by done. unfold_binds.
  rewrite mkdirSync_feeds by done.
  rewrite (writeFileSync_ok rss2_file rss2_path feeds_path);
    [|done|done|by apply file_not_made|apply feeds_dir_made].
  rewrite writeFileSync_EISDIR; [done|].
  cbn [Fs.dirs]. apply elem_of_union. by left.
Qed.

(** X9.  When [public] or [public/feeds] is a regular file the directory
    cannot be made: the run ends with [ENOTDIR] and the file system is as it
    was, so nothing is written. *)
Theorem blocked_directory_writes_nothing fs posts feed :
  getPosts (lit "notes") fs = Normal posts ->
  addAll posts (buildFeed C) = Normal feed ->
  is_Some (Fs.files fs !! [lit "public"]) \/ is_Some (Fs.files fs !! feeds_path) ->
  exists p, run fs = (fs, Throw (Fs.ENOTDIR p)).
Proof.
  intros Hposts Hfeed Hblocked. exists feeds_path.
  erewrite run_emit by done. unfold_binds.
  destruct (mkdirSync_feeds_cases (X:=X) fs) as [->|Hok]; [done|].
  exfalso. apply mkdirSync_feeds_inv in Hok as [H1 H2].
  rewrite H1, H2 in Hblocked. by destruct Hblocked as [[? ?]|[? ?]].
Qed.

End FeedRuns.

Example run_changes_only_feeds_witness :
  let fs' := (Demo.run [Demo.hello] DemoFs.other_files).1 in
  Fs.files fs' !! [lit "public"; lit "robots.txt"] = Some (lit "User-agent: *")
  /\ [lit "src"] ∈ Fs.dirs fs'.
Proof.
  cbv zeta. unfold Demo.run.
  destruct (run_changes_only_feeds Demo.constants (option str) str str
              Demo.render Demo.parse (Demo.loader [Demo.hello])
              (Demo.document (lit "rss")) (Demo.document (lit "json"))
              (Demo.document (lit "atom")) DemoFs.other_files)
    as (Hfiles & Hdirs & _).
  split.
  - rewrite (Hfiles [lit "public"; lit "robots.txt"]) by solve_elem. reflexivity.
  - apply Hdirs. unfold DemoFs.other_files. cbn [Fs.dirs]. by apply elem_of_singleton.
Defined.

Example first_failing_post_decides_witness :
  Demo.loader [Demo.hello; Demo.broken; Demo.hello] (lit "notes") Demo.empty_fs
  = Normal ([Demo.hello] ++ Demo.broken :: [Demo.hello])
  /\ Demo.render (IPost.mdxSource Demo.hello) = Normal Demo.hello_markup
  /\ Demo.render (IPost.mdxSource Demo.broken) = Throw (lit "malformed compiledBody")
  /\ Demo.run [Demo.hello; Demo.broken; Demo.hello] Demo.empty_fs
     = (Demo.empty_fs, Throw (Fs.Thrown (lit "malformed compiledBody"))).
Proof.
  split; [reflexivity|]. split; [reflexivity|]. split; [reflexivity|].
  apply (first_failing_post_decides Demo.constants (option str) str str
           Demo.render Demo.parse
           (Demo.loader [Demo.hello; Demo.broken; Demo.hello])
           (Demo.document (lit "rss")) (Demo.document (lit "json"))
           (Demo.document (lit "atom")) Demo.empty_fs [Demo.hello] Demo.broken
           [Demo.hello]); [reflexivity| |reflexivity].
  constructor; [|constructor]. by exists Demo.hello_markup.
Defined.

Example failed_write_is_not_undone_witness :
  json1_path ∈ Fs.dirs DemoFs.json_is_dir
  /\ Demo.run [Demo.hello] DemoFs.json_is_dir
     = (Fs.mk (Fs.dirs DemoFs.json_is_dir ∪ {[ [lit "public"]; feeds_path ]})
          (<[rss2_path := lit "rss https://BASEURL/notes/hello-world"]>
             (Fs.files DemoFs.json_is_dir)),
        Throw (Fs.EISDIR json1_path)).
Proof.
  assert (json1_path ∈ Fs.dirs DemoFs.json_is_dir) as Hdir.
  { unfold DemoFs.json_is_dir. cbn [Fs.dirs]. by apply elem_of_singleton. }
  split; [exact Hdir|].
  apply (failed_write_is_not_undone Demo.constants (option str) str str
           Demo.render Demo.parse (Demo.loader [Demo.hello])
           (Demo.document (lit "rss")) (Demo.document (lit "json"))
           (Demo.document (lit "atom")) DemoFs.json_is_dir [Demo.hello]
           (Feed.addItem (buildFeed Demo.constants) Demo.hello_item));
    [reflexivity|reflexivity|reflexivity|reflexivity| |exact Hdir].
  unfold DemoFs.json_is_dir. cbn [Fs.dirs]. rewrite elem_of_singleton. discriminate.
Defined.

Example blocked_directory_writes_nothing_witness :
  is_Some (Fs.files DemoFs.feeds_is_file !! feeds_path)
  /\ is_Some (Fs.files DemoFs.public_is_file !! [lit "public"])
  /\ (exists p, Demo.run [Demo.hello] DemoFs.feeds_is_file
                = (DemoFs.feeds_is_file, Throw (Fs.ENOTDIR p)))
  /\ (exists p, Demo.run [Demo.hello] DemoFs.public_is_file
                = (DemoFs.public_is_file, Throw (Fs.ENOTDIR p))).
Proof.
  assert (is_Some (Fs.files DemoFs.feeds_is_file !! feeds_path)) as Hfeeds.
  { exists (lit "x"). unfold DemoFs.feeds_is_file. cbn [Fs.files].
    apply lookup_singleton_eq. }
  assert (is_Some (Fs.files DemoFs.public_is_file !! [lit "public"])) as Hpublic.
  { exists (lit "x"). unfold DemoFs.public_is_file. cbn [Fs.files].
    apply lookup_singleton_eq. }
  split; [exact Hfeeds|]. split; [exact Hpublic|]. split.
  - apply (blocked_directory_writes_nothing Demo.constants (option str) str str
             Demo.render Demo.parse (Demo.loader [Demo.hello])
             (Demo.document (lit "rss")) (Demo.document (lit "json"))
             (Demo.document (lit "atom")) DemoFs.feeds_is_file [Demo.hello]
             (Feed.addItem (buildFeed Demo.constants) Demo.hello_item));
      [reflexivity|reflexivity|by right].
  - apply (blocked_directory_writes_nothing Demo.constants (option str) str str
             Demo.render Demo.parse (Demo.loader [Demo.hello])
             (Demo.document (lit "rss")) (Demo.document (lit "json"))
             (Demo.document (lit "atom")) DemoFs.public_is_file [Demo.hello]
             (Feed.addItem (buildFeed Demo.constants) Demo.hello_item));
      [reflexivity|reflexivity|by left].
Defined.

(** ** Runs at their times *)

Section RunsInTime.

Variable C : Constants.
Variables MdxSource Date X Time : Type.
Variable renderToStaticMarkup : MdxSource -> completion X str.
Variable parseISO : str -> Date.
Variable getPosts : str -> Fs.t -> completion X (list (IPost.t MdxSource)).
Variables rss2 json1 atom1 : Time -> Feed.t Date -> str.

Local Abbreviation makeItem := (makeFeedItem C renderToStaticMarkup parseISO).
Local Abbreviation run_at :=
  (generateMainFeeds_at C renderToStaticMarkup parseISO getPosts rss2 json1 atom1).

(** X7.  A run that has completed can be repeated: started again at
    whatever time on the file system it left, with [getPosts] giving the
    same posts, it completes again.  The existing directory is accepted and
    the three files are overwritten with what the serializers give, at the
    new time, for the same feed; nothing of the first run's documents is
    left, and nothing else changes.  Run again at the same time, it leaves
    the file system exactly as it is. *)
Theorem run_can_be_repeated (now1 now2 : Time) (fs fs' : Fs.t) :
  run_at now1 fs = (fs', Normal tt) ->
  getPosts (lit "notes") fs' = getPosts (lit "notes") fs ->
  exists (posts : list (IPost.t MdxSource)) (feed : Feed.t Date),
    getPosts (lit "notes") fs = Normal posts
    /\ Feed.options feed = Feed.options (buildFeed C (Date:=Date))
    /\ Forall2 (fun post item => makeItem post = Normal item) posts (Feed.items feed)
    /\ fs' = with_feeds (rss2 now1 feed) (json1 now1 feed) (atom1 now1 feed) fs
    /\ run_at now2 fs'
       = (with_feeds (rss2 now2 feed) (json1 now2 feed) (atom1 now2 feed) fs, Normal tt)
    /\ run_at now1 fs' = (fs', Normal tt).
Proof.
  intros (posts & feed & Hposts & Hfeed & Hw & ->)%run_at_Normal_inv Hsame.
  rewrite Hposts in Hsame. exists posts, feed.
  split; [done|].
  assert (Feed.options feed = Feed.options (buildFeed C (Date:=Date))
          /\ Forall2 (fun post item => makeItem post = Normal item) posts
               (Feed.items feed)) as [Hopts Hitems].
  { by apply addItems_Normal in Hfeed as (its & Hits & ->). }
  split; [done|]. split; [done|]. split; [done|]. split.
  - erewrite run_at_Normal; [|done|done|by apply with_feeds_writable].
    by rewrite with_feeds_over.
  - erewrite run_at_Normal; [|done|done|by apply with_feeds_writable].
    by rewrite with_feeds_over.
Qed.

End RunsInTime.

Example run_can_be_repeated_witness :
  let fs' := (DemoClock.run [Demo.hello] DemoClock.new_year Demo.stale_fs).1 in
  DemoClock.run [Demo.hello] DemoClock.new_year Demo.stale_fs = (fs', Normal tt)
  /\ Demo.loader [Demo.hello] (lit "notes") fs'
     = Demo.loader [Demo.hello] (lit "notes") Demo.stale_fs
  /\ DemoClock.run [Demo.hello] DemoClock.new_year fs' = (fs', Normal tt)
  /\ exists feed,
       DemoClock.run [Demo.hello] DemoClock.next_day fs'
       = (with_feeds (DemoClock.stamped (lit "rss") DemoClock.next_day feed)
            (Demo.document (lit "json") feed)
            (DemoClock.stamped (lit "atom") DemoClock.next_day feed)
            Demo.stale_fs,
          Normal tt).
Proof.
  cbv zeta.
  assert (DemoClock.run [Demo.hello] DemoClock.new_year Demo.stale_fs
          = ((DemoClock.run [Demo.hello] DemoClock.new_year Demo.stale_fs).1, Normal tt))
    as Hrun by (vm_compute; reflexivity).
  split; [exact Hrun|]. split; [reflexivity|].
  destruct (run_can_be_repeated Demo.constants (option str) str str str
              Demo.render Demo.parse (Demo.loader [Demo.hello])
              (DemoClock.stamped (lit "rss")) (fun _ => Demo.document (lit "json"))
              (DemoClock.stamped (lit "atom"))
              DemoClock.new_year DemoClock.next_day Demo.stale_fs _ Hrun eq_refl)
    as (posts & feed & _ & _ & _ & _ & Hnext & Hagain).
  split; [exact Hagain|]. exists feed. exact Hnext.
Defined.

(** ** The channel and the page head *)

(** X10.  The channel [buildFeed] creates and the page head [Meta] point to
    the same places: for each of the three formats the URL among the
    channel's [feedLinks] is the site's URL of the [href] of the alternate
    link of that format, and the channel's image is the site's URL of the
    page's [og:image]. *)
Theorem channel_matches_page_head (C : Constants) (Date : Type) :
  let links := FeedOptions.feedLinks (Feed.options (buildFeed C (Date:=Date))) in
  [ (Some (lit "application/rss+xml"), Some (FeedLinks.rss2 links));
    (Some (lit "application/atom+xml"), Some (FeedLinks.atom links));
    (Some (lit "application/feed+json"), Some (FeedLinks.json links)) ]
  = List.map (fun l => (fst l, option_map (site_url C) (snd l)))
      (alternate_links (Meta C))
  /\ [Some (FeedOptions.image (Feed.options (buildFeed C (Date:=Date))))]
     = List.map (option_map (site_url C)) (meta_content (lit "og:image") (Meta C)).
Proof. split; reflexivity. Qed.

(** The favicon of the channel is not the icon of the page head: the one
    is below [/favicons], the other below [/favicon]. *)
Remark channel_favicon_differs (C : Constants) (Date : Type) :
  FeedOptions.favicon (Feed.options (buildFeed C (Date:=Date)))
  = site_url C (lit "/favicons/favicon.ico")
  /\ (prop (lit "href")
        <$> filter (fun e => prop (lit "rel") e = Some (lit "shortcut icon"))
              (elements_of (lit "link") (Meta C)))
     = [Some (lit "/favicon/favicon.ico")].
Proof. split; reflexivity. Qed.

(** * The plantuml text encoding *)

Module PlantumlFacts.
Import Plantuml.

Local Open Scope Z_scope.

(** Quotients and remainders of natural numbers, named and handed to [lia]
    with their equation. *)
Ltac div_mod_name a b :=
  let H := fresh in
  let H' := fresh in
  pose proof (Nat.div_mod_eq a b) as H;
  pose proof (Nat.mod_upper_bound a b ltac:(lia)) as H';
  generalize dependent (a mod b)%nat; generalize dependent (a / b)%nat; intros.

Ltac mod_lia :=
  repeat match goal with
  | |- context [(?a mod ?b)%nat] => div_mod_name a b
  | _ : context [(?a mod ?b)%nat] |- _ => div_mod_name a b
  | |- context [(?a / ?b)%nat] => div_mod_name a b
  | _ : context [(?a / ?b)%nat] |- _ => div_mod_name a b
  end; lia.

Lemma all_below_spec n P :
  all_below n P = true -> forall b, 0 <= b < Z.of_nat n -> P b = true.
Proof.
  unfold all_below. rewrite forallb_forall. intros H b Hb. apply H.
  apply list_elem_of_In, list_elem_of_fmap. exists (Z.to_nat b).
  split; [lia|]. apply elem_of_seq. lia.
Qed.

Lemma all_below_2 n m (P : Z -> Z -> bool) :
  all_below n (fun a => all_below m (P a)) = true ->
  forall a b, 0 <= a < Z.of_nat n -> 0 <= b < Z.of_nat m -> P a b = true.
Proof.
  intros H a b Ha Hb.
  apply (all_below_spec m (P a)); [|done].
  by apply (all_below_spec n (fun a => all_below m (P a))).
Qed.

Lemma all_below_3 n m k (P : Z -> Z -> Z -> bool) :
  all_below n (fun a => all_below m (fun b => all_below k (P a b))) = true ->
  forall a b c, 0 <= a < Z.of_nat n -> 0 <= b < Z.of_nat m ->
    0 <= c < Z.of_nat k -> P a b c = true.
Proof.
  intros H a b c Ha Hb Hc.
  apply (all_below_spec k (P a b)); [|done].
  by apply (all_below_2 n m (fun a b => all_below k (P a b))).
Qed.

Lemma list_ind_3 (P : list Z -> Prop) :
  P [] -> (forall b1, P [b1]) -> (forall b1 b2, P [b1; b2]) ->
  (forall b1 b2 b3 rest, P rest -> P (b1 :: b2 :: b3 :: rest)) ->
  forall l, P l.
Proof.
  intros H0 H1 H2 H3. fix IH 1.
  intros [|b1 [|b2 [|b3 rest]]]; [apply H0 | apply H1 | apply H2 | apply H3, IH].
Qed.

Lemma list_ind_4 (P : list Z -> Prop) :
  P [] -> (forall s, s <> [] -> (length s < 4)%nat -> P s) ->
  (forall c1 c2 c3 c4 rest, P rest -> P (c1 :: c2 :: c3 :: c4 :: rest)) ->
  forall s, P s.
Proof.
  intros H0 H1 H4. fix IH 1.
  intros [|c1 [|c2 [|c3 [|c4 rest]]]];
    [apply H0 | apply H1; simpl; (done || lia) .. | apply H4, IH].
Qed.

(** ** Six bits and a character *)

Lemma sextet_range x : 0 <= Z.land x 63 < 64.
Proof. change 63 with (Z.ones 6). rewrite Z.land_ones by lia. apply Z.mod_pos_bound. lia. Qed.

Lemma encode_6_bit_decoded b :
  0 <= b < 64 -> decode_6_bit (encode_6_bit b) = Some b.
Proof.
  intros Hb.
  pose proof (all_below_spec 64
    (fun b => bool_decide (decode_6_bit (encode_6_bit b) = Some b))) as H.
  eapply bool_decide_eq_true_1, H; [by vm_compute | lia].
Qed.

Lemma encode_6_bit_alphabet b :
  0 <= b < 64 -> exists c, encode_6_bit b = [c] /\ in_alphabet c = true.
Proof.
  intros Hb.
  pose proof (all_below_spec 64
    (fun b => match encode_6_bit b with [c] => in_alphabet c | _ => false end)) as H.
  specialize (H eq_refl b ltac:(lia)). cbv beta in H.
  destruct (encode_6_bit b) as [|c [|]]; try done. by exists c.
Qed.

Lemma decode_6_bit_encoded c :
  in_alphabet c = true ->
  exists v, decode_6_bit [c] = Some v /\ 0 <= v < 64 /\ encode_6_bit v = [c].
Proof.
  intros Hc.
  assert (0 <= c < 256) as Hr by (unfold in_alphabet in Hc; lia).
  pose proof (all_below_spec 256
    (fun c => implb (in_alphabet c)
      match decode_6_bit [c] with
      | Some v => (0 <=? v) && (v <? 64) && bool_decide (encode_6_bit v = [c])
      | None => false
      end)) as H.
  specialize (H ltac:(by vm_compute) c ltac:(lia)). cbv beta in H.
  rewrite Hc in H. simpl in H.
  destruct (decode_6_bit [c]) as [v|]; [|done]. exists v.
  apply andb_prop in H as [H1 H]. apply andb_prop in H1 as [H1 H2].
  apply bool_decide_eq_true_1 in H. repeat split; (done || lia).
Qed.

Lemma decode_6_bit_single x : is_Some (decode_6_bit [x]).
Proof.
  unfold decode_6_bit. simpl.
  repeat case_bool_decide; try done. repeat case_match; done.
Qed.

(** ** Three bytes and four characters *)

Lemma append_3_bytes_sextets b1 b2 b3 :
  append_3_bytes b1 b2 b3 = mjoin (encode_6_bit <$> sextets b1 b2 b3).
Proof. unfold append_3_bytes, sextets. simpl. by rewrite app_nil_r. Qed.

Lemma append_3_bytes_alphabet b1 b2 b3 :
  exists x1 x2 x3 x4, append_3_bytes b1 b2 b3 = [x1; x2; x3; x4]
    /\ Forall (fun c => in_alphabet c = true) [x1; x2; x3; x4].
Proof.
  unfold append_3_bytes.
  destruct (encode_6_bit_alphabet _ (sextet_range (Z.shiftr b1 2))) as (x1 & -> & ?).
  destruct (encode_6_bit_alphabet _ (sextet_range
    (Z.lor (shl (Z.land b1 3) 4) (Z.shiftr b2 4)))) as (x2 & -> & ?).
  destruct (encode_6_bit_alphabet _ (sextet_range
    (Z.lor (shl (Z.land b2 15) 2) (Z.shiftr b3 6)))) as (x3 & -> & ?).
  destruct (encode_6_bit_alphabet _ (sextet_range (Z.land b3 63))) as (x4 & -> & ?).
  exists x1, x2, x3, x4. split; [done|]. by repeat constructor.
Qed.

Lemma extract_3_bytes_joined x1 x2 x3 x4 c1 c2 c3 c4 tl :
  decode_6_bit [x1] = Some c1 -> decode_6_bit [x2] = Some c2 ->
  decode_6_bit [x3] = Some c3 -> decode_6_bit [x4] = Some c4 ->
  extract_3_bytes (x1 :: x2 :: x3 :: x4 :: tl) = Some (joined c1 c2 c3 c4).
Proof. intros H1 H2 H3 H4. unfold extract_3_bytes. by rewrite H1, H2, H3, H4. Qed.

Lemma extract_3_bytes_Some x1 x2 x3 x4 tl :
  is_Some (extract_3_bytes (x1 :: x2 :: x3 :: x4 :: tl)).
Proof.
  destruct (decode_6_bit_single x1) as [c1 H1], (decode_6_bit_single x2) as [c2 H2],
    (decode_6_bit_single x3) as [c3 H3], (decode_6_bit_single x4) as [c4 H4].
  erewrite extract_3_bytes_joined; done.
Qed.

Lemma extract_3_bytes_short chunk :
  (length chunk < 4)%nat -> extract_3_bytes chunk = None.
Proof.
  destruct chunk as [|x1 [|x2 [|x3 [|x4 tl]]]]; simpl; try lia; intros _.
  - done.
  - by destruct (decode_6_bit [x1]).
  - destruct (decode_6_bit [x1]); [|done]. by destruct (decode_6_bit [x2]).
  - destruct (decode_6_bit [x1]); [|done]. destruct (decode_6_bit [x2]); [|done].
    by destruct (decode_6_bit [x3]).
Qed.

Lemma joined_sextets_1 b1 b2 :
  is_u8 b1 -> is_u8 b2 ->
  Z.lor (shl (Z.land (Z.shiftr b1 2) 63) 2)
        (Z.land (Z.shiftr (Z.land (Z.lor (shl (Z.land b1 3) 4) (Z.shiftr b2 4)) 63) 4) 63)
  = b1.
Proof.
  intros H1 H2. apply Z.eqb_eq.
  apply (all_below_2 256 256 (fun b1 b2 =>
    Z.lor (shl (Z.land (Z.shiftr b1 2) 63) 2)
      (Z.land (Z.shiftr (Z.land (Z.lor (shl (Z.land b1 3) 4) (Z.shiftr b2 4)) 63) 4) 63)
    =? b1)); [by vm_compute | done..].
Qed.

Lemma joined_sextets_2_high b1 b2 :
  is_u8 b1 -> is_u8 b2 ->
  Z.land (shl (Z.land (Z.lor (shl (Z.land b1 3) 4) (Z.shiftr b2 4)) 63) 4) 240
  = Z.land b2 240.
Proof.
  intros H1 H2. apply Z.eqb_eq.
  apply (all_below_2 256 256 (fun b1 b2 =>
    Z.land (shl (Z.land (Z.lor (shl (Z.land b1 3) 4) (Z.shiftr b2 4)) 63) 4) 240
    =? Z.land b2 240)); [by vm_compute | done..].
Qed.

Lemma joined_sextets_2_low b2 b3 :
  is_u8 b2 -> is_u8 b3 ->
  Z.lor (Z.land b2 240)
    (Z.land (Z.shiftr (Z.land (Z.lor (shl (Z.land b2 15) 2) (Z.shiftr b3 6)) 63) 2) 15)
  = b2.
Proof.
  intros H1 H2. apply Z.eqb_eq.
  apply (all_below_2 256 256 (fun b2 b3 =>
    Z.lor (Z.land b2 240)
      (Z.land (Z.shiftr (Z.land (Z.lor (shl (Z.land b2 15) 2) (Z.shiftr b3 6)) 63) 2) 15)
    =? b2)); [by vm_compute | done..].
Qed.

Lemma joined_sextets_3 b2 b3 :
  is_u8 b2 -> is_u8 b3 ->
  Z.lor (Z.land (shl (Z.land (Z.lor (shl (Z.land b2 15) 2) (Z.shiftr b3 6)) 63) 6) 192)
    (Z.land (Z.land (Z.land b3 63) 63) 63)
  = b3.
Proof.
  intros H1 H2. apply Z.eqb_eq.
  apply (all_below_2 256 256 (fun b2 b3 =>
    Z.lor (Z.land (shl (Z.land (Z.lor (shl (Z.land b2 15) 2) (Z.shiftr b3 6)) 63) 6) 192)
      (Z.land (Z.land (Z.land b3 63) 63) 63)
    =? b3)); [by vm_compute | done..].
Qed.

Lemma append_3_bytes_extracted b1 b2 b3 :
  is_u8 b1 -> is_u8 b2 -> is_u8 b3 ->
  extract_3_bytes (append_3_bytes b1 b2 b3) = Some [b1; b2; b3].
Proof.
  intros H1 H2 H3. unfold append_3_bytes.
  pose proof (sextet_range (Z.shiftr b1 2)) as R1.
  pose proof (sextet_range (Z.lor (shl (Z.land b1 3) 4) (Z.shiftr b2 4))) as R2.
  pose proof (sextet_range (Z.lor (shl (Z.land b2 15) 2) (Z.shiftr b3 6))) as R3.
  pose proof (sextet_range (Z.land b3 63)) as R4.
  pose proof (encode_6_bit_decoded _ R1) as D1.
  pose proof (encode_6_bit_decoded _ R2) as D2.
  pose proof (encode_6_bit_decoded _ R3) as D3.
  pose proof (encode_6_bit_decoded _ R4) as D4.
  destruct (encode_6_bit_alphabet _ R1) as (x1 & E1 & _).
  destruct (encode_6_bit_alphabet _ R2) as (x2 & E2 & _).
  destruct (encode_6_bit_alphabet _ R3) as (x3 & E3 & _).
  destruct (encode_6_bit_alphabet _ R4) as (x4 & E4 & _).
  rewrite E1 in D1 |- *. rewrite E2 in D2 |- *. rewrite E3 in D3 |- *.
  rewrite E4 in D4 |- *. cbn [app].
  rewrite (extract_3_bytes_joined _ _ _ _ _ _ _ _ _ D1 D2 D3 D4).
  unfold joined. rewrite joined_sextets_1, joined_sextets_2_high,
    joined_sextets_2_low, joined_sextets_3 by done. done.
Qed.

Lemma sextets_joined_12 c1 c2 c3 :
  0 <= c1 < 64 -> 0 <= c2 < 64 -> 0 <= c3 < 64 ->
  let b1 := Z.lor (shl c1 2) (Z.land (Z.shiftr c2 4) 63) in
  let b2 := Z.lor (Z.land (shl c2 4) 240) (Z.land (Z.shiftr c3 2) 15) in
  Z.land (Z.shiftr b1 2) 63 = c1
  /\ Z.land (Z.lor (shl (Z.land b1 3) 4) (Z.shiftr b2 4)) 63 = c2.
Proof.
  intros H1 H2 H3. cbv zeta.
  pose proof (all_below_3 64 64 64 (fun c1 c2 c3 =>
    let b1 := Z.lor (shl c1 2) (Z.land (Z.shiftr c2 4) 63) in
    let b2 := Z.lor (Z.land (shl c2 4) 240) (Z.land (Z.shiftr c3 2) 15) in
    (Z.land (Z.shiftr b1 2) 63 =? c1)
    && (Z.land (Z.lor (shl (Z.land b1 3) 4) (Z.shiftr b2 4)) 63 =? c2))
    ltac:(by vm_compute) c1 c2 c3 H1 H2 H3) as H.
  cbv beta zeta in H. apply andb_prop in H as [Ha Hb].
  by apply Z.eqb_eq in Ha, Hb.
Qed.

Lemma sextets_joined_34 c2 c3 c4 :
  0 <= c2 < 64 -> 0 <= c3 < 64 -> 0 <= c4 < 64 ->
  let b2 := Z.lor (Z.land (shl c2 4) 240) (Z.land (Z.shiftr c3 2) 15) in
  let b3 := Z.lor (Z.land (shl c3 6) 192) (Z.land c4 63) in
  Z.land (Z.lor (shl (Z.land b2 15) 2) (Z.shiftr b3 6)) 63 = c3
  /\ Z.land (Z.land b3 63) 63 = c4.
Proof.
  intros H2 H3 H4. cbv zeta.
  pose proof (all_below_3 64 64 64 (fun c2 c3 c4 =>
    let b2 := Z.lor (Z.land (shl c2 4) 240) (Z.land (Z.shiftr c3 2) 15) in
    let b3 := Z.lor (Z.land (shl c3 6) 192) (Z.land c4 63) in
    (Z.land (Z.lor (shl (Z.land b2 15) 2) (Z.shiftr b3 6)) 63 =? c3)
    && (Z.land (Z.land b3 63) 63 =? c4))
    ltac:(by vm_compute) c2 c3 c4 H2 H3 H4) as H.
  cbv beta zeta in H. apply andb_prop in H as [Ha Hb].
  by apply Z.eqb_eq in Ha, Hb.
Qed.

Lemma extract_3_bytes_appended x1 x2 x3 x4 :
  Forall (fun c => in_alphabet c = true) [x1; x2; x3; x4] ->
  exists b1 b2 b3, extract_3_bytes [x1; x2; x3; x4] = Some [b1; b2; b3]
    /\ append_3_bytes b1 b2 b3 = [x1; x2; x3; x4].
Proof.
  intros H. apply Forall_cons in H as [A1 H]. apply Forall_cons in H as [A2 H].
  apply Forall_cons in H as [A3 H]. apply Forall_cons in H as [A4 _].
  destruct (decode_6_bit_encoded _ A1) as (c1 & D1 & R1 & E1).
  destruct (decode_6_bit_encoded _ A2) as (c2 & D2 & R2 & E2).
  destruct (decode_6_bit_encoded _ A3) as (c3 & D3 & R3 & E3).
  destruct (decode_6_bit_encoded _ A4) as (c4 & D4 & R4 & E4).
  rewrite (extract_3_bytes_joined _ _ _ _ _ _ _ _ _ D1 D2 D3 D4).
  unfold joined. eexists _, _, _. split; [done|].
  destruct (sextets_joined_12 c1 c2 c3 R1 R2 R3) as [S1 S2].
  destruct (sextets_joined_34 c2 c3 c4 R2 R3 R4) as [S3 S4].
  unfold append_3_bytes. cbv zeta. rewrite S1, S2, S3, S4, E1, E2, E3, E4. done.
Qed.

(** ** The loop of the encoder *)

Lemma step_by_3_keep i x l :
  (i mod 3 = 0)%nat -> step_by_3 ((i, x) :: l) = (i, x) :: step_by_3 l.
Proof. intros H. unfold step_by_3. by rewrite filter_cons_True. Qed.

Lemma step_by_3_skip i x l :
  (i mod 3 <> 0)%nat -> step_by_3 ((i, x) :: l) = step_by_3 l.
Proof. intros H. unfold step_by_3. by rewrite filter_cons_False. Qed.

Lemma lookup_after (pre : list Z) (rest : list Z) (i : nat) :
  (pre ++ rest) !! (length pre + i)%nat = rest !! i.
Proof. rewrite lookup_app_r by lia. f_equal. lia. Qed.

Lemma encode_rounds_from rest :
  forall pre acc, (length pre mod 3 = 0)%nat ->
  foldl (encode_round (pre ++ rest)) (Some acc)
    (step_by_3 (enumerate_from (length pre) rest))
  = Some (acc ++ encode_groups rest).
Proof.
  induction rest as [|b1|b1 b2|b1 b2 b3 rest IH] using list_ind_3;
    intros pre acc Hpre.
  - simpl. by rewrite app_nil_r.
  - cbn [enumerate_from]. rewrite step_by_3_keep by done. simpl.
    rewrite length_app. simpl.
    rewrite bool_decide_eq_false_2 by lia.
    rewrite bool_decide_eq_true_2 by lia. done.
  - cbn [enumerate_from]. rewrite step_by_3_keep by done.
    rewrite step_by_3_skip by mod_lia. simpl.
    rewrite length_app. simpl.
    rewrite bool_decide_eq_true_2 by lia.
    rewrite (lookup_after pre [b1; b2] 1). done.
  - cbn [enumerate_from]. rewrite step_by_3_keep by done.
    rewrite step_by_3_skip by mod_lia. rewrite step_by_3_skip by mod_lia.
    cbn [foldl encode_round mbind option_bind].
    rewrite length_app. cbn [length].
    rewrite bool_decide_eq_false_2 by lia.
    rewrite bool_decide_eq_false_2 by lia.
    rewrite (lookup_after pre (b1 :: b2 :: b3 :: rest) 1).
    rewrite (lookup_after pre (b1 :: b2 :: b3 :: rest) 2).
    cbn [lookup list_lookup mbind option_bind].
    specialize (IH (pre ++ [b1; b2; b3]) (acc ++ append_3_bytes b1 b2 b3)).
    rewrite <- (app_assoc pre) in IH. cbn [app] in IH.
    rewrite length_app in IH. cbn [length] in IH.
    replace (length pre + 3)%nat with (S (S (S (length pre)))) in IH by lia.
    rewrite IH by mod_lia.
    cbn [encode_groups]. by rewrite app_assoc.
Qed.

Lemma encode_in_groups bytes :
  encode_plantuml_for_deflate bytes = Some (encode_groups bytes).
Proof. apply (encode_rounds_from bytes [] []). done. Qed.

Lemma encode_groups_shape bytes :
  length (encode_groups bytes) = (4 * ((length bytes + 2) / 3))%nat
  /\ Forall (fun c => in_alphabet c = true) (encode_groups bytes).
Proof.
  induction bytes as [|b1|b1 b2|b1 b2 b3 rest [IHl IHa]] using list_ind_3.
  - split; [done | constructor].
  - cbn [encode_groups].
    destruct (append_3_bytes_alphabet b1 0 0) as (x1 & x2 & x3 & x4 & -> & H).
    by split.
  - cbn [encode_groups].
    destruct (append_3_bytes_alphabet b1 b2 0) as (x1 & x2 & x3 & x4 & -> & H).
    by split.
  - cbn [encode_groups].
    destruct (append_3_bytes_alphabet b1 b2 b3) as (x1 & x2 & x3 & x4 & -> & H).
    split.
    + rewrite length_app, IHl. cbn [length]. mod_lia.
    + by apply Forall_app.
Qed.

(** ** The loop of the decoder *)

Lemma chunks_fuel_enough n fuel :
  forall fuel' l, (0 < n)%nat -> (length l <= fuel)%nat -> (length l <= fuel')%nat ->
  chunks_fuel fuel n l = chunks_fuel fuel' n l.
Proof.
  induction fuel as [|fuel IH]; intros [|fuel'] [|x l] Hn H H'; simpl in *;
    try done; try lia.
  f_equal. apply IH; [done|..]; destruct n; simpl; try lia;
    rewrite length_drop; lia.
Qed.

Lemma chunks_4 c1 c2 c3 c4 rest :
  chunks 4 (c1 :: c2 :: c3 :: c4 :: rest) = [c1; c2; c3; c4] :: chunks 4 rest.
Proof.
  unfold chunks.
  change (length (c1 :: c2 :: c3 :: c4 :: rest)) with (S (3 + length rest)).
  cbn [chunks_fuel]. change (take 4 (c1 :: c2 :: c3 :: c4 :: rest)) with [c1; c2; c3; c4].
  change (drop 4 (c1 :: c2 :: c3 :: c4 :: rest)) with rest.
  f_equal. apply chunks_fuel_enough; lia.
Qed.

Lemma chunks_short n s :
  s <> [] -> (length s <= n)%nat -> chunks n s = [s].
Proof.
  intros Hs Hn. unfold chunks. destruct s as [|x s]; [done|].
  cbn [length chunks_fuel]. rewrite take_ge, drop_ge by done.
  by destruct (length s).
Qed.

Lemma decode_rounds_result cs :
  forall result, decode_rounds cs result = (result ++.) <$> decode_rounds cs [].
Proof.
  induction cs as [|chunk cs IH]; intros result; simpl.
  - by rewrite app_nil_r.
  - destruct (extract_3_bytes chunk) as [bytes|]; [|done]. simpl.
    rewrite (IH (result ++ bytes)), (IH bytes).
    destruct (decode_rounds cs []) as [r|]; [|done]. simpl.
    by rewrite app_assoc.
Qed.

Lemma decode_nil : decode_plantuml_for_deflate [] = Some [].
Proof. done. Qed.

Lemma decode_short s :
  s <> [] -> (length s < 4)%nat -> decode_plantuml_for_deflate s = None.
Proof.
  intros Hs Hl. unfold decode_plantuml_for_deflate.
  rewrite chunks_short by (done || lia). simpl.
  by rewrite extract_3_bytes_short.
Qed.

Lemma decode_4 c1 c2 c3 c4 rest :
  decode_plantuml_for_deflate (c1 :: c2 :: c3 :: c4 :: rest)
  = bytes ← extract_3_bytes [c1; c2; c3; c4];
    more ← decode_plantuml_for_deflate rest;
    Some (bytes ++ more).
Proof.
  unfold decode_plantuml_for_deflate. rewrite chunks_4.
  cbn [decode_rounds].
  destruct (extract_3_bytes [c1; c2; c3; c4]) as [bytes|]; [|done].
  cbn [mbind option_bind app]. rewrite decode_rounds_result.
  by destruct (decode_rounds (chunks 4 rest) []).
Qed.

Lemma decode_None s :
  decode_plantuml_for_deflate s = None <-> (length s mod 4 <> 0)%nat.
Proof.
  induction s as [|s Hs Hl|c1 c2 c3 c4 rest IH] using list_ind_4.
  - by rewrite decode_nil.
  - rewrite decode_short by done. split; [intros _|done].
    destruct s; [done|]. cbn [length] in *. mod_lia.
  - rewrite decode_4.
    destruct (extract_3_bytes_Some c1 c2 c3 c4 []) as [bytes ->].
    cbn [mbind option_bind length].
    replace (S (S (S (S (length rest)))) mod 4)%nat with (length rest mod 4)%nat
      by mod_lia.
    rewrite <- IH. by destruct (decode_plantuml_for_deflate rest).
Qed.

(** ** There and back *)

Lemma padding_3 n : padding (S (S (S n))) = padding n.
Proof. unfold padding. f_equal. mod_lia. Qed.

Lemma encode_groups_decoded bytes :
  Forall is_u8 bytes ->
  decode_plantuml_for_deflate (encode_groups bytes)
  = Some (bytes ++ padding (length bytes)).
Proof.
  assert (is_u8 0) as H0 by (unfold is_u8; lia).
  induction bytes as [|b1|b1 b2|b1 b2 b3 rest IH] using list_ind_3; intros H.
  - done.
  - apply Forall_cons in H as [H1 _]. cbn [encode_groups].
    pose proof (append_3_bytes_extracted b1 0 0 H1 H0 H0) as E.
    destruct (append_3_bytes_alphabet b1 0 0) as (x1 & x2 & x3 & x4 & Ea & _).
    rewrite Ea in E |- *. rewrite decode_4, E, decode_nil. done.
  - apply Forall_cons in H as [H1 H]. apply Forall_cons in H as [H2 _].
    cbn [encode_groups].
    pose proof (append_3_bytes_extracted b1 b2 0 H1 H2 H0) as E.
    destruct (append_3_bytes_alphabet b1 b2 0) as (x1 & x2 & x3 & x4 & Ea & _).
    rewrite Ea in E |- *. rewrite decode_4, E, decode_nil. done.
  - apply Forall_cons in H as [H1 H]. apply Forall_cons in H as [H2 H].
    apply Forall_cons in H as [H3 H]. cbn [encode_groups].
    pose proof (append_3_bytes_extracted b1 b2 b3 H1 H2 H3) as E.
    destruct (append_3_bytes_alphabet b1 b2 b3) as (x1 & x2 & x3 & x4 & Ea & _).
    rewrite Ea in E |- *. cbn [app]. rewrite decode_4, E, (IH H).
    cbn [length]. by rewrite padding_3.
Qed.

Lemma decoded_encode_groups s :
  Forall (fun c => in_alphabet c = true) s -> (length s mod 4 = 0)%nat ->
  exists bytes, decode_plantuml_for_deflate s = Some bytes
    /\ encode_groups bytes = s /\ (length bytes mod 3 = 0)%nat.
Proof.
  induction s as [|s Hs Hl|c1 c2 c3 c4 rest IH] using list_ind_4; intros Ha Hm.
  - by exists [].
  - destruct s; [done|]. cbn [length] in *. mod_lia.
  - apply Forall_cons in Ha as [A1 Ha]. apply Forall_cons in Ha as [A2 Ha].
    apply Forall_cons in Ha as [A3 Ha]. apply Forall_cons in Ha as [A4 Ha].
    destruct IH as (more & Hd & He & Hl); [done | cbn [length] in Hm; mod_lia |].
    destruct (extract_3_bytes_appended c1 c2 c3 c4) as (b1 & b2 & b3 & Hx & Hp);
      [by repeat constructor|].
    exists (b1 :: b2 :: b3 :: more). rewrite decode_4, Hx, Hd.
    split; [done|]. split; [|cbn [length]; mod_lia].
    cbn [encode_groups]. by rewrite Hp, He.
Qed.

(** ** The error of the decoder *)

Lemma internal_error_not_io err :
  from_io_error err <> chars "internal decoding error (out of bounds or similar)".
Proof. done. Qed.

Lemma internal_error_not_utf8 err :
  from_utf8_error err <> chars "internal decoding error (out of bounds or similar)".
Proof. done. Qed.

End PlantumlFacts.

Section PlantumlText.
Import Plantuml PlantumlFacts.

Local Open Scope Z_scope.

(** X11.  [decode_6_bit] undoes [encode_6_bit] on every value of six bits:
    the character written for [b] is read back as [b]. *)
Theorem encode_6_bit_round_trip b :
  0 <= b < 64 -> decode_6_bit (encode_6_bit b) = Some b.
Proof. apply encode_6_bit_decoded. Qed.

(** X12.  [extract_3_bytes] undoes [append_3_bytes]: the four characters
    written for three bytes are read back as these three bytes. *)
Theorem append_3_bytes_round_trip b1 b2 b3 :
  is_u8 b1 -> is_u8 b2 -> is_u8 b3 ->
  extract_3_bytes (append_3_bytes b1 b2 b3) = Some [b1; b2; b3].
Proof. apply append_3_bytes_extracted. Qed.

(** X13.  [encode_plantuml_for_deflate] never indexes its slice out of
    bounds, whatever the length.  It writes four characters for every three
    bytes begun, and each of them is a digit, a letter, a hyphen or an
    underscore: the question mark of [encode_6_bit] is never written. *)
Theorem encoder_stays_in_bounds bytes :
  exists text,
    encode_plantuml_for_deflate bytes = Some text
    /\ length text = (4 * ((length bytes + 2) / 3))%nat
    /\ Forall (fun c => in_alphabet c = true) text.
Proof.
  exists (encode_groups bytes). split; [apply encode_in_groups|].
  apply encode_groups_shape.
Qed.

(** X14.  Decoding what was encoded gives the bytes back, followed by the
    zero bytes that filled the last group of three: none when the length is
    a multiple of three. *)
Theorem encode_then_decode bytes :
  Forall is_u8 bytes ->
  encode_plantuml_for_deflate bytes ≫= decode_plantuml_for_deflate
  = Some (bytes ++ padding (length bytes)).
Proof.
  intros H. rewrite encode_in_groups. cbn [mbind option_bind].
  by apply encode_groups_decoded.
Qed.

(** X15.  Encoding what was decoded gives the text back, for a text of the
    sixty-four characters of the encoding whose length is a multiple of
    four. *)
Theorem decode_then_encode text :
  Forall (fun c => in_alphabet c = true) text ->
  (length text mod 4 = 0)%nat ->
  decode_plantuml_for_deflate text ≫= encode_plantuml_for_deflate = Some text.
Proof.
  intros Ha Hl. destruct (decoded_encode_groups text Ha Hl) as (bytes & -> & He & _).
  cbn [mbind option_bind]. by rewrite encode_in_groups, He.
Qed.

(** X16.  [decode_plantuml_for_deflate] gives [None] exactly when the length
    of the text is no multiple of four.  No character makes it fail. *)
Theorem decoder_fails_on_length_only text :
  decode_plantuml_for_deflate text = None <-> (length text mod 4 <> 0)%nat.
Proof. apply decode_None. Qed.

(** X17.  [decode_plantuml_deflate] reports the internal decoding error
    exactly for a text whose length is no multiple of four, whatever the
    decompression and the reading as UTF-8 do. *)
Theorem internal_error_is_about_length
    (inflate from_utf8 : list Z -> completion (list Z) (list Z)) text :
  decode_plantuml_deflate inflate from_utf8 text
  = Throw (chars "internal decoding error (out of bounds or similar)")
  <-> (length text mod 4 <> 0)%nat.
Proof.
  rewrite <- decode_None. unfold decode_plantuml_deflate.
  destruct (decode_plantuml_for_deflate text) as [result|]; [|done].
  split; [|done]. intros H. exfalso.
  destruct (inflate result) as [decoded_bytes|err].
  - destruct (from_utf8 decoded_bytes) as [s|err]; [done|].
    apply (internal_error_not_utf8 err). congruence.
  - apply (internal_error_not_io err). congruence.
Qed.

(** X18.  What [decode_plantuml_deflate] hands to the decompression, for a
    text that [encode_plantuml_deflate] made, is the compressed bytes
    followed by the zero bytes that filled the last group of three; the
    encoding itself does not panic. *)
Theorem decoder_inflates_padded_bytes
    (as_bytes : list Z -> list Z)
    (deflate inflate from_utf8 : list Z -> completion (list Z) (list Z))
    plantuml encoded_bytes :
  deflate (as_bytes plantuml) = Normal encoded_bytes ->
  Forall is_u8 encoded_bytes ->
  exists text,
    encode_plantuml_deflate as_bytes deflate plantuml = Some (Normal text)
    /\ decode_plantuml_deflate inflate from_utf8 text
       = match inflate (encoded_bytes ++ padding (length encoded_bytes)) with
         | Throw err => Throw (from_io_error err)
         | Normal decoded_bytes =>
           match from_utf8 decoded_bytes with
           | Throw err => Throw (from_utf8_error err)
           | Normal s => Normal s
           end
         end.
Proof.
  intros Hd Hu8. exists (encode_groups encoded_bytes).
  unfold encode_plantuml_deflate, decode_plantuml_deflate.
  rewrite Hd, encode_in_groups. split; [done|].
  by rewrite encode_groups_decoded.
Qed.

Example encode_6_bit_round_trip_witness :
  0 <= 62 < 64 /\ encode_6_bit 62 = chars "-" /\ decode_6_bit (chars "-") = Some 62.
Proof.
  split; [lia|]. split; [reflexivity|].
  apply (encode_6_bit_round_trip 62). lia.
Defined.

Example append_3_bytes_round_trip_witness :
  is_u8 64 /\ is_u8 115 /\ is_u8 116
  /\ append_3_bytes 64 115 116 = chars "G7Dq"
  /\ extract_3_bytes (chars "G7Dq") = Some [64; 115; 116].
Proof.
  unfold is_u8. split; [lia|]. split; [lia|]. split; [lia|]. split; [reflexivity|].
  apply (append_3_bytes_round_trip 64 115 116); unfold is_u8; lia.
Defined.

Example encode_then_decode_witness :
  Forall is_u8 (chars "@startuml")
  /\ encode_plantuml_for_deflate (chars "@startuml") = Some (chars "G7DqON9qTMri")
  /\ decode_plantuml_for_deflate (chars "G7DqON9qTMri") = Some (chars "@startuml")
  /\ encode_plantuml_for_deflate (chars "@start") ≫= decode_plantuml_for_deflate
     = Some (chars "@start")
  /\ encode_plantuml_for_deflate [64; 115; 116; 97] ≫= decode_plantuml_for_deflate
     = Some [64; 115; 116; 97; 0; 0].
Proof.
  assert (forall s, Forall is_u8 (chars s)) as Hu8.
  { intros s. unfold chars. apply Forall_fmap, Forall_forall. intros c _.
    unfold is_u8. cbn [compose]. pose proof (nat_ascii_bounded c). lia. }
  split; [apply Hu8|]. split; [reflexivity|]. split; [reflexivity|].
  split; [apply (encode_then_decode (chars "@start")), Hu8|].
  apply (encode_then_decode [64; 115; 116; 97]).
  repeat (constructor; [unfold is_u8; lia|]). constructor.
Defined.

Example decode_then_encode_witness :
  let text := chars "0IO0sVz0StHXSdHrRMmAK5LDJ20jFY1ILLDKEY18HKnCJo0AG6LkP7LjR000" in
  Forall (fun c => in_alphabet c = true) text
  /\ (length text mod 4 = 0)%nat
  /\ decode_plantuml_for_deflate text ≫= encode_plantuml_for_deflate = Some text.
Proof.
  cbv zeta.
  assert (Forall (fun c => in_alphabet c = true)
    (chars "0IO0sVz0StHXSdHrRMmAK5LDJ20jFY1ILLDKEY18HKnCJo0AG6LkP7LjR000")) as Ha.
  { apply Forall_forall. intros c Hc. apply list_elem_of_In in Hc.
    revert c Hc. apply forallb_forall. reflexivity. }
  split; [exact Ha|]. split; [reflexivity|].
  apply (decode_then_encode _ Ha). reflexivity.
Defined.

Example decoder_inflates_padded_bytes_witness :
  let stored s := Normal ([1; Z.of_nat (length s); 0; 255 - Z.of_nat (length s); 255] ++ s) in
  let unstored bytes :=
    match bytes with
    | 1 :: n :: 0 :: _ :: 255 :: s => Normal (take (Z.to_nat n) s)
    | _ => Throw (chars "deflate decompression error")
    end in
  stored (chars "@startuml") = Normal ([1; 9; 0; 246; 255] ++ chars "@startuml")
  /\ Forall is_u8 ([1; 9; 0; 246; 255] ++ chars "@startuml")
  /\ exists text,
       encode_plantuml_deflate id stored (chars "@startuml") = Some (Normal text)
       /\ decode_plantuml_deflate unstored Normal text = Normal (chars "@startuml").
Proof.
  cbv zeta. split; [reflexivity|].
  assert (Forall is_u8 ([1; 9; 0; 246; 255] ++ chars "@startuml")) as Hu8.
  { set (bytes := _ ++ _). vm_compute in bytes. subst bytes.
    repeat (constructor; [unfold is_u8; lia|]). constructor. }
  split; [exact Hu8|].
  destruct (decoder_inflates_padded_bytes id
    (fun s => Normal ([1; Z.of_nat (length s); 0; 255 - Z.of_nat (length s); 255] ++ s))
    (fun bytes =>
       match bytes with
       | 1 :: n :: 0 :: _ :: 255 :: s => Normal (take (Z.to_nat n) s)
       | _ => Throw (chars "deflate decompression error")
       end)
    Normal (chars "@startuml") _ eq_refl Hu8) as (text & He & Hdec).
  exists text. split; [exact He|]. rewrite Hdec. reflexivity.
Defined.

(** The text of the test of the post is a stored block: its five bytes of
    header, the diagram as it is, and two zero bytes that fill the last
    group. *)
Example stored_block_of_the_post :
  decode_plantuml_for_deflate
    (chars "0IO0sVz0StHXSdHrRMmAK5LDJ20jFY1ILLDKEY18HKnCJo0AG6LkP7LjR000")
  = Some ([1; 38; 0; 217; 255]
          ++ chars "@startuml" ++ [10] ++ chars "PUML -> RUST: HELLO " ++ [10]
          ++ chars "@enduml" ++ [0; 0]).
Proof. reflexivity. Qed.

End PlantumlText.
